(** * World Coffee Tour: the map tile prefetcher and the post store

    A shallow embedding of the site's map script (the tile prefetching
    system [prefetchTilesForCoffeePosts], [prefetchBoundsAtZoom],
    [getTileBounds], [prefetchTile], and the marker filter of the index
    page) and of the post store contract, together with the properties the
    specification states about them.

    JavaScript numbers are IEEE doubles.  They are idealised here as real
    numbers extended with [Infinity], [-Infinity] and [NaN]: rounding,
    overflow and the sign of zero are not modelled.  A double is never
    exactly an odd multiple of [PI / 2]; at such reals the value the model
    gives to [Math.tan] carries no meaning, and the results below that
    depend on it are stated away from those points.

    Strings are ASCII.  The page's clock is ideal: a timer runs at the very
    time it was set for, and the code between two events takes no time.

    Further on come the rest of the page script (fitting the map to its
    markers, lazy loading of images), the service worker that caches the
    site's images, the counters of the about page and the pattern by which
    the development server tells static assets. *)

From Stdlib Require Import Reals Lra Lia ZArith List String Ascii Bool.
From Stdlib Require Import DecimalString.
From Stdlib Require Import Permutation.
Import ListNotations.

Set Implicit Arguments.

(** ** JavaScript numbers *)

Module JS.

Local Open Scope R_scope.

Inductive number : Type :=
| Fin (r : R)
| PInf
| NInf
| NaN.

(** The sign of a finite real, needed by the rules for the special values. *)
Definition Rsign (r : R) : comparison :=
  match total_order_T r 0 with
  | inleft (left _) => Lt
  | inleft (right _) => Eq
  | inright _ => Gt
  end.

Definition add (a b : number) : number :=
  match a, b with
  | NaN, _ | _, NaN => NaN
  | Fin x, Fin y => Fin (x + y)
  | PInf, NInf | NInf, PInf => NaN
  | PInf, _ | _, PInf => PInf
  | NInf, _ | _, NInf => NInf
  end.

Definition neg (a : number) : number :=
  match a with
  | Fin x => Fin (- x)
  | PInf => NInf
  | NInf => PInf
  | NaN => NaN
  end.

Definition sub (a b : number) : number := add a (neg b).

(** An infinity carrying the sign of [c]; [NaN] for a zero factor. *)
Definition signed_inf (c : comparison) : number :=
  match c with
  | Gt => PInf
  | Lt => NInf
  | Eq => NaN
  end.

Definition mul (a b : number) : number :=
  match a, b with
  | NaN, _ | _, NaN => NaN
  | Fin x, Fin y => Fin (x * y)
  | Fin x, PInf | PInf, Fin x => signed_inf (Rsign x)
  | Fin x, NInf | NInf, Fin x => signed_inf (CompOpp (Rsign x))
  | PInf, PInf | NInf, NInf => PInf
  | PInf, NInf | NInf, PInf => NaN
  end.

(** Division; a zero divisor is taken as [+0]. *)
Definition div (a b : number) : number :=
  match a, b with
  | NaN, _ | _, NaN => NaN
  | Fin x, Fin y =>
      match Rsign y with
      | Eq => signed_inf (Rsign x)
      | _ => Fin (x / y)
      end
  | Fin _, (PInf | NInf) => Fin 0
  | PInf, Fin y => match Rsign y with Lt => NInf | _ => PInf end
  | NInf, Fin y => match Rsign y with Lt => PInf | _ => NInf end
  | (PInf | NInf), (PInf | NInf) => NaN
  end.

Declare Scope js_scope.
Delimit Scope js_scope with js.
Bind Scope js_scope with number.
Infix "+" := add : js_scope.
Infix "-" := sub : js_scope.
Infix "*" := mul : js_scope.
Infix "/" := div : js_scope.

(** [Math.PI], [Math.tan], [Math.cos], [Math.log], [Math.pow]. *)
Definition Math_PI : number := Fin PI.

Definition Math_tan (a : number) : number :=
  match a with
  | Fin x => Fin (tan x)
  | _ => NaN
  end.

Definition Math_cos (a : number) : number :=
  match a with
  | Fin x => Fin (cos x)
  | _ => NaN
  end.

Definition Math_log (a : number) : number :=
  match a with
  | Fin x =>
      match Rsign x with
      | Lt => NaN
      | Eq => NInf
      | Gt => Fin (ln x)
      end
  | PInf => PInf
  | NInf | NaN => NaN
  end.

(** [Math.pow(b, e)] for a positive base and an integer exponent, the only
    use the program makes of it ([Math.pow(2, zoom)]). *)
Definition Math_pow (b : R) (e : Z) : number := Fin (powerRZ b e).

(** An integer-valued number: what [Math.floor] returns.  Loop counters and
    tile indices live here, so that they can be computed with. *)
Inductive integer : Type :=
| Int (z : Z)
| IPInf
| INInf
| INaN.

Definition Math_floor (a : number) : integer :=
  match a with
  | Fin x => Int (Zfloor x)
  | PInf => IPInf
  | NInf => INInf
  | NaN => INaN
  end.

(** [Math.min] and [Math.max] of two arguments: [NaN] if either is. *)
Definition Math_min (a b : integer) : integer :=
  match a, b with
  | INaN, _ | _, INaN => INaN
  | INInf, _ | _, INInf => INInf
  | IPInf, c | c, IPInf => c
  | Int x, Int y => Int (Z.min x y)
  end.

Definition Math_max (a b : integer) : integer :=
  match a, b with
  | INaN, _ | _, INaN => INaN
  | IPInf, _ | _, IPInf => IPInf
  | INInf, c | c, INInf => c
  | Int x, Int y => Int (Z.max x y)
  end.

(** [a <= b]: false as soon as one side is [NaN]. *)
Definition le (a b : integer) : bool :=
  match a, b with
  | INaN, _ | _, INaN => false
  | INInf, _ => true
  | _, IPInf => true
  | IPInf, _ => false
  | _, INInf => false
  | Int x, Int y => (x <=? y)%Z
  end.

(** [a++] on a loop counter: the infinities absorb the increment. *)
Definition incr (a : integer) : integer :=
  match a with
  | Int x => Int (x + 1)
  | other => other
  end.

End JS.

(** ** Outcomes of a JavaScript computation *)

(** A call returns, throws an uncaught exception, or never returns. *)
Inductive outcome (A : Type) : Type :=
| Done (a : A)
| Throws (e : string)
| Diverges.

Arguments Done {A} a.
Arguments Throws {A} e.
Arguments Diverges {A}.

Definition obind {A B : Type} (m : outcome A) (k : A -> outcome B) : outcome B :=
  match m with
  | Done a => k a
  | Throws e => Throws e
  | Diverges => Diverges
  end.

(** [Array.prototype.forEach] threading an accumulator through a callback
    that may fail. *)
Fixpoint ofold {A S : Type} (f : S -> A -> outcome S) (l : list A) (s : S)
  : outcome S :=
  match l with
  | [] => Done s
  | a :: rest => obind (f s a) (ofold f rest)
  end.

(** ** The counting loop [for (let i = lo; i <= hi; i++)] *)

Module Loop.

Import JS.

Definition zrange (a b : Z) : list Z :=
  map (fun i => (a + Z.of_nat i)%Z) (seq 0 (Z.to_nat (b - a + 1))).

(** The values the counter takes in the body.  With a [NaN] bound the test
    fails at once; with an infinite start, or an infinite upper bound that
    the start does not exceed, the test never fails. *)
Definition for_range (lo hi : integer) : outcome (list Z) :=
  if le lo hi then
    match lo, hi with
    | Int a, Int b => Done (zrange a b)
    | _, _ => Diverges
    end
  else Done [].

(** The same loop run step by step, [fuel] bounding the number of tests. *)
Fixpoint for_loop (fuel : nat) (i hi : integer) : option (list integer) :=
  match fuel with
  | O => None
  | S fuel' =>
      if le i hi
      then option_map (cons i) (for_loop fuel' (incr i) hi)
      else Some []
  end.

End Loop.

(** ** Strings, arrays and objects *)

Module Str.

Local Open Scope string_scope.

Fixpoint map_chars (f : ascii -> ascii) (s : string) : string :=
  match s with
  | EmptyString => EmptyString
  | String c rest => String (f c) (map_chars f rest)
  end.

(** [String.prototype.toLowerCase], on ASCII text. *)
Definition lower_char (c : ascii) : ascii :=
  let n := nat_of_ascii c in
  if (65 <=? n)%nat && (n <=? 90)%nat then ascii_of_nat (n + 32) else c.

Definition toLowerCase (s : string) : string := map_chars lower_char s.

(** The class [\s], on ASCII text: tab, line feed, vertical tab, form feed,
    carriage return and space. *)
Definition is_space (c : ascii) : bool :=
  let n := nat_of_ascii c in
  ((9 <=? n)%nat && (n <=? 13)%nat) || (n =? 32)%nat.

(** [s.replace(/\s/g, '-')]. *)
Definition replace_spaces (s : string) : string :=
  map_chars (fun c => if is_space c then "-"%char else c) s.

(** A string in a boolean position: only the empty string is falsy. *)
Definition nonempty (s : string) : bool :=
  match s with
  | EmptyString => false
  | _ => true
  end.

(** An integer in a template literal. *)
Definition of_Z (z : Z) : string :=
  DecimalString.NilZero.string_of_int (Z.to_int z).

End Str.

(** A plain object [{}] used as a map from names to values.  Own properties
    are kept in the order they were created; the names of
    [Object.prototype] are visible through every plain object. *)

Module Obj.

Local Open Scope string_scope.

Definition object (V : Type) : Type := list (string * V).

Fixpoint own_get {V : Type} (o : object V) (k : string) : option V :=
  match o with
  | [] => None
  | (k', v) :: rest => if String.eqb k' k then Some v else own_get rest k
  end.

Fixpoint own_set {V : Type} (o : object V) (k : string) (v : V) : object V :=
  match o with
  | [] => []
  | (k', v') :: rest =>
      if String.eqb k' k then (k', v) :: rest else (k', v') :: own_set rest k v
  end.

Definition prototype_names : list string :=
  [ "constructor"; "__defineGetter__"; "__defineSetter__"; "hasOwnProperty";
    "__lookupGetter__"; "__lookupSetter__"; "isPrototypeOf";
    "propertyIsEnumerable"; "toString"; "valueOf"; "__proto__";
    "toLocaleString" ].

Definition inherited (k : string) : bool :=
  existsb (String.eqb k) prototype_names.

(** [if (!o[k]) o[k] = []; o[k].push(v)].  An array is truthy, so an own
    entry is kept and extended.  An inherited name is truthy as well, but
    what it holds has no [push]: the call throws. *)
Definition push_to {V : Type} (o : object (list V)) (k : string) (v : V)
  : outcome (object (list V)) :=
  match own_get o k with
  | Some arr => Done (own_set o k (arr ++ [v])%list)
  | None =>
      if inherited k
      then Throws "TypeError: push is not a function"
      else Done (o ++ [(k, [v])])%list
  end.

(** Array indices: the canonical decimal names below [2^32 - 1]. *)
Fixpoint digits_value (s : string) (acc : N) : option N :=
  match s with
  | EmptyString => Some acc
  | String c rest =>
      let n := N_of_ascii c in
      if (48 <=? n)%N && (n <=? 57)%N
      then digits_value rest (10 * acc + (n - 48))%N
      else None
  end.

Definition array_index (k : string) : option N :=
  match k with
  | EmptyString => None
  | _ =>
      match digits_value k 0%N with
      | Some n =>
          if String.eqb (Str.of_Z (Z.of_N n)) k && (n <? 4294967295)%N
          then Some n else None
      | None => None
      end
  end.

Fixpoint insert_by_index {V : Type} (n : N) (e : string * V)
  (l : list (N * (string * V))) : list (N * (string * V)) :=
  match l with
  | [] => [(n, e)]
  | (m, e') :: rest =>
      if (n <? m)%N then (n, e) :: l else (m, e') :: insert_by_index n e rest
  end.

Fixpoint index_entries {V : Type} (o : object V) : list (N * (string * V)) :=
  match o with
  | [] => []
  | (k, v) :: rest =>
      match array_index k with
      | Some n => insert_by_index n (k, v) (index_entries rest)
      | None => index_entries rest
      end
  end.

Definition named_entries {V : Type} (o : object V) : object V :=
  filter (fun e => match array_index (fst e) with Some _ => false | None => true end) o.

(** [Object.entries(o)]: array indices in ascending order first, then the
    other names in the order they were created. *)
Definition entries {V : Type} (o : object V) : list (string * V) :=
  (map snd (index_entries o) ++ named_entries o)%list.

End Obj.

(** ** Leaflet: geographic bounds

    [L.latLngBounds] and [LatLngBounds.pad] belong to the Leaflet library the
    page loads; they are written here after Leaflet's [LatLngBounds]. *)

Module L.

Local Open Scope R_scope.

Record LatLng : Type := { lat : R; lng : R }.

Record LatLngBounds : Type := { getSouthWest : LatLng; getNorthEast : LatLng }.

(** The first point given to fresh bounds sets both corners. *)
Definition of_point (p : R * R) : LatLngBounds :=
  {| getSouthWest := {| lat := fst p; lng := snd p |};
     getNorthEast := {| lat := fst p; lng := snd p |} |}.

Definition extend (b : LatLngBounds) (p : R * R) : LatLngBounds :=
  {| getSouthWest := {| lat := Rmin (fst p) (lat (getSouthWest b));
                        lng := Rmin (snd p) (lng (getSouthWest b)) |};
     getNorthEast := {| lat := Rmax (fst p) (lat (getNorthEast b));
                        lng := Rmax (snd p) (lng (getNorthEast b)) |} |}.

(** [L.latLngBounds(coords)]; no corner is set for an empty array. *)
Definition latLngBounds (coords : list (R * R)) : option LatLngBounds :=
  match coords with
  | [] => None
  | p :: rest => Some (fold_left extend rest (of_point p))
  end.

(** [bounds.pad(bufferRatio)]: new bounds built from the two moved corners. *)
Definition pad (b : LatLngBounds) (bufferRatio : R) : LatLngBounds :=
  let sw := getSouthWest b in
  let ne := getNorthEast b in
  let heightBuffer := Rabs (lat sw - lat ne) * bufferRatio in
  let widthBuffer := Rabs (lng sw - lng ne) * bufferRatio in
  extend (of_point (lat sw - heightBuffer, lng sw - widthBuffer))
         (lat ne + heightBuffer, lng ne + widthBuffer).

End L.

(** ** The map script *)

Module Point.
Record point : Type := { x : JS.integer; y : JS.integer }.
End Point.

Module TileBounds.
Record tile_bounds : Type := { min : Point.point; max : Point.point }.
End TileBounds.

Module Tile.
Record tile : Type := { x : Z; y : Z; z : Z }.
End Tile.

Module Main.

Import JS.
Local Open Scope R_scope.

(** *** Tile indices *)

(** [tileSize] and [worldSize] are computed by the source and never used. *)
Definition getTileBounds (bounds : L.LatLngBounds) (zoom : Z) : TileBounds.tile_bounds :=
  let sw := L.getSouthWest bounds in
  let ne := L.getNorthEast bounds in
  let swPoint :=
    {| Point.x :=
         Math_floor ((Fin (L.lng sw) + Fin 180) / Fin 360 * Math_pow 2 zoom)%js;
       Point.y :=
         Math_floor
           ((Fin 1
             - Math_log (Math_tan (Fin (L.lat sw) * Math_PI / Fin 180)
                         + Fin 1 / Math_cos (Fin (L.lat sw) * Math_PI / Fin 180))
               / Math_PI)
            / Fin 2 * Math_pow 2 zoom)%js |} in
  let nePoint :=
    {| Point.x :=
         Math_floor ((Fin (L.lng ne) + Fin 180) / Fin 360 * Math_pow 2 zoom)%js;
       Point.y :=
         Math_floor
           ((Fin 1
             - Math_log (Math_tan (Fin (L.lat ne) * Math_PI / Fin 180)
                         + Fin 1 / Math_cos (Fin (L.lat ne) * Math_PI / Fin 180))
               / Math_PI)
            / Fin 2 * Math_pow 2 zoom)%js |} in
  {| TileBounds.min :=
       {| Point.x := Math_min (Point.x swPoint) (Point.x nePoint);
          Point.y := Math_min (Point.y swPoint) (Point.y nePoint) |};
     TileBounds.max :=
       {| Point.x := Math_max (Point.x swPoint) (Point.x nePoint);
          Point.y := Math_max (Point.y swPoint) (Point.y nePoint) |} |}.

(** *** One tile request *)

Definition subdomains : list string := ["a"; "b"; "c"; "d"]%string.

(** [arr[i]] for an integer [i]: [undefined] outside the array. *)
Definition array_get {A : Type} (arr : list A) (i : Z) : option A :=
  if (i <? 0)%Z then None else nth_error arr (Z.to_nat i).

(** A value that may be [undefined], inside a template literal. *)
Definition interpolate (s : option string) : string :=
  match s with
  | Some s => s
  | None => "undefined"%string
  end.

(** The URL [prefetchTile(x, y, z)] assigns to [img.src]; [%] is the
    remainder that takes the sign of the dividend. *)
Definition tile_url (x y z : Z) : string :=
  let subdomain :=
    array_get subdomains (Z.rem (x + y) (Z.of_nat (List.length subdomains))) in
  ("https://" ++ interpolate subdomain ++ ".basemaps.cartocdn.com/dark_all/"
   ++ Str.of_Z z ++ "/" ++ Str.of_Z x ++ "/" ++ Str.of_Z y ++ ".png")%string.

(** *** Posts and markers *)

(** A coordinate as the page data carries it. *)
Inductive value : Type :=
| Num (r : R)
| Null
| Undefined.

(** A coordinate in a boolean position: zero, [null] and [undefined] are
    falsy. *)
Definition truthy (v : value) : bool :=
  match v with
  | Num r => if Req_dec_T r 0 then false else true
  | Null | Undefined => false
  end.

Record post : Type := {
  title : string;
  url : string;
  latitude : value;
  longitude : value;
  continent : option string;
  country : option string;
  city : option string
}.

(** The pair [[post.latitude, post.longitude]] where the guard
    [post.latitude && post.longitude] lets the post through. *)
Definition coordinates (p : post) : option (R * R) :=
  if truthy (latitude p) && truthy (longitude p) then
    match latitude p, longitude p with
    | Num la, Num lo => Some (la, lo)
    | _, _ => None
    end
  else None.

Record marker : Type := { position : R * R; popup : post }.

(** The markers the index page puts on the map. *)
Definition markers (coffeePostsData : list post) : list marker :=
  flat_map
    (fun post =>
       match coordinates post with
       | Some c => [ {| position := c; popup := post |} ]
       | None => []
       end)
    coffeePostsData.

(** Prefetching is scheduled, two seconds after the markers are placed, only
    when there is a marker. *)
Definition schedules_prefetch (coffeePostsData : list post) : option Z :=
  if (0 <? List.length (markers coffeePostsData))%nat then Some 2000%Z else None.

(** *** Grouping *)

Record groups : Type := {
  regions : Obj.object (list (R * R));
  countries : Obj.object (list (R * R));
  cities : Obj.object (list (R * R))
}.

Definition no_groups : groups := {| regions := []; countries := []; cities := [] |}.

(** [if (name && name !== placeholder) { ... o[name].push(c) }]. *)
Definition group_under (o : Obj.object (list (R * R))) (name : option string)
  (placeholder : string) (c : R * R) : outcome (Obj.object (list (R * R))) :=
  match name with
  | Some k =>
      if Str.nonempty k && negb (String.eqb k placeholder)
      then Obj.push_to o k c
      else Done o
  | None => Done o
  end.

(** The body of [coffeePosts.forEach(post => ...)]. *)
Definition group_post (g : groups) (p : post) : outcome groups :=
  match coordinates p with
  | None => Done g
  | Some c =>
      let continent :=
        option_map (fun s => Str.replace_spaces (Str.toLowerCase s)) (continent p) in
      let country := country p in
      let city := city p in
      obind (group_under (regions g) continent "unknown" c) (fun r =>
      obind (group_under (countries g) country "Unknown" c) (fun cs =>
      obind (group_under (cities g) city "Unknown" c) (fun ci =>
      Done {| regions := r; countries := cs; cities := ci |})))
  end.

Definition group_posts (coffeePosts : list post) : outcome groups :=
  ofold group_post coffeePosts no_groups.

(** *** The page's timers and image requests *)

(** The closure [prefetchNext] of one [prefetchBoundsAtZoom] call. *)
Record batch : Type := { tilesToFetch : list Tile.tile; index : nat }.

(** An [Image] whose [src] has been set. *)
Record request : Type := { at_ms : Z; target : Tile.tile; src : string }.

Record world : Type := {
  now : Z;
  timers : list (Z * batch);
  requests : list request
}.

Definition prefetchTile (x y z : Z) (w : world) : world :=
  {| now := now w;
     timers := timers w;
     requests :=
       requests w ++ [ {| at_ms := now w;
                          target := {| Tile.x := x; Tile.y := y; Tile.z := z |};
                          src := tile_url x y z |} ] |}.

Definition setTimeout (callback : batch) (delay : Z) (w : world) : world :=
  {| now := now w;
     timers := timers w ++ [ ((now w + delay)%Z, callback) ];
     requests := requests w |}.

Definition prefetchNext (b : batch) (w : world) : world :=
  if (List.length (tilesToFetch b) <=? index b)%nat then w
  else
    match nth_error (tilesToFetch b) (index b) with
    | Some tile =>
        let w := prefetchTile (Tile.x tile) (Tile.y tile) (Tile.z tile) w in
        setTimeout {| tilesToFetch := tilesToFetch b; index := S (index b) |} 50 w
    | None => w
    end.

(** The two nested counting loops filling [tiles]. *)
Definition covering_tiles (tileBounds : TileBounds.tile_bounds) (zoom : Z)
  : outcome (list Tile.tile) :=
  obind (Loop.for_range (Point.x (TileBounds.min tileBounds))
                        (Point.x (TileBounds.max tileBounds))) (fun xs =>
  ofold (fun tiles x =>
           obind (Loop.for_range (Point.y (TileBounds.min tileBounds))
                                 (Point.y (TileBounds.max tileBounds))) (fun ys =>
           Done (tiles ++ map (fun y => {| Tile.x := x; Tile.y := y; Tile.z := zoom |}) ys)))
        xs []).

Definition maxTiles : nat := 20.

Definition prefetchBoundsAtZoom (mainTileLayer : bool) (bounds : L.LatLngBounds)
  (zoom : Z) (w : world) : outcome world :=
  if negb mainTileLayer then Done w
  else
    let tileBounds := getTileBounds bounds zoom in
    obind (covering_tiles tileBounds zoom) (fun tiles =>
    let tilesToFetch := firstn maxTiles tiles in
    Done (prefetchNext {| tilesToFetch := tilesToFetch; index := 0 |} w)).

(** The body shared by the three [Object.entries(...).forEach] passes: a
    group with more than [least] members is prefetched at two zoom levels. *)
Definition prefetch_group (mainTileLayer : bool) (least : nat) (ratio : R)
  (zoom1 zoom2 : Z) (w : world) (entry : string * list (R * R)) : outcome world :=
  let coords := snd entry in
  if (least <? List.length coords)%nat then
    match L.latLngBounds coords with
    | Some bounds =>
        obind (prefetchBoundsAtZoom mainTileLayer (L.pad bounds ratio) zoom1 w)
              (prefetchBoundsAtZoom mainTileLayer (L.pad bounds ratio) zoom2)
    | None => Throws "TypeError: cannot read properties of undefined"
    end
  else Done w.

Definition prefetchTilesForCoffeePosts (mainTileLayer : bool)
  (coffeePosts : option (list post)) (w : world) : outcome world :=
  match mainTileLayer, coffeePosts with
  | true, Some coffeePosts =>
      obind (group_posts coffeePosts) (fun g =>
      obind (ofold (prefetch_group mainTileLayer 0 0.15 4 6)
                   (Obj.entries (regions g)) w) (fun w =>
      obind (ofold (prefetch_group mainTileLayer 0 0.2 8 10)
                   (Obj.entries (countries g)) w) (fun w =>
      ofold (prefetch_group mainTileLayer 1 0.3 12 14)
            (Obj.entries (cities g)) w)))
  | _, _ => Done w
  end.

(** *** The event loop *)

(** The timer that fires next: the earliest one, and among equally early
    ones the one set first. *)
Fixpoint take_earliest (ts : list (Z * batch))
  : option ((Z * batch) * list (Z * batch)) :=
  match ts with
  | [] => None
  | t :: rest =>
      match take_earliest rest with
      | None => Some (t, [])
      | Some (m, others) =>
          if (fst t <=? fst m)%Z then Some (t, rest) else Some (m, t :: others)
      end
  end.

(** What the browser delivers to the page: a timer that is due, or the end
    of an image load. *)
Inductive event : Type :=
| TimerDue
| ImageLoaded (i : nat)
| ImageFailed (i : nat).

(** [img.onload] and [img.onerror]: both bodies are empty. *)
Definition img_onload (w : world) : world := w.
Definition img_onerror (w : world) : world := w.

(** A due timer runs at the time it was set for. *)
Definition fire (w : world) : world :=
  match take_earliest (timers w) with
  | Some ((due, callback), others) =>
      prefetchNext callback
        {| now := due; timers := others; requests := requests w |}
  | None => w
  end.

Definition dispatch (w : world) (e : event) : world :=
  match e with
  | TimerDue => fire w
  | ImageLoaded _ => img_onload w
  | ImageFailed _ => img_onerror w
  end.

Definition run (events : list event) (w : world) : world :=
  fold_left dispatch events w.

Definition page_at (t : Z) : world := {| now := t; timers := []; requests := [] |}.

End Main.

(** ** The post store and the importer *)

Module PostStore.

Local Open Scope string_scope.

(** Modelled from the spec: the Post Store and the Importer
    ([coffee_db.py], [import_posts_to_db.py]) are not among the sources.
    The store is one table with an auto-incremented [id] and a unique
    [hash]; [insert] on a hash already present changes nothing and returns
    the existing id; the importer normalises each source record, defaulting
    a missing city, country or continent to ["Unknown"], hashes its title,
    date and caption, attempts the insert, and counts what was inserted and
    what was skipped as a duplicate. *)

Record source_record : Type := {
  src_title : string;
  src_date : string;
  src_caption : string;
  src_city : option string;
  src_country : option string;
  src_continent : option string
}.

Record fields : Type := {
  title : string;
  date : string;
  notes : string;
  city : string;
  country : string;
  continent : string
}.

Record row : Type := { id : nat; hash : string; content : fields }.

Record store : Type := { rows : list row; next_id : nat }.

Record counts : Type := { inserted : nat; skipped : nat }.

Definition or_unknown (s : option string) : string :=
  match s with
  | Some s => s
  | None => "Unknown"
  end.

Definition normalize (r : source_record) : fields :=
  {| title := src_title r;
     date := src_date r;
     notes := src_caption r;
     city := or_unknown (src_city r);
     country := or_unknown (src_country r);
     continent := or_unknown (src_continent r) |}.

Definition find_hash (s : store) (h : string) : option row :=
  find (fun r => String.eqb (hash r) h) (rows s).

(** [insert]: the id of the row holding the hash, and whether it is new. *)
Definition insert (s : store) (h : string) (c : fields) : store * nat * bool :=
  match find_hash s h with
  | Some r => (s, id r, false)
  | None =>
      ({| rows := (rows s ++ [ {| id := next_id s; hash := h; content := c |} ])%list;
          next_id := S (next_id s) |},
       next_id s, true)
  end.

Section Importer.

(** The fingerprint of a post's title, date and caption: any function. *)
Variable fingerprint : string -> string -> string -> string.

Definition dedup_hash (c : fields) : string :=
  fingerprint (title c) (date c) (notes c).

Definition import_one (acc : store * counts) (r : source_record) : store * counts :=
  let c := normalize r in
  let '(s, _, fresh) := insert (fst acc) (dedup_hash c) c in
  if fresh
  then (s, {| inserted := S (inserted (snd acc)); skipped := skipped (snd acc) |})
  else (s, {| inserted := inserted (snd acc); skipped := S (skipped (snd acc)) |}).

Definition import_batch (s : store) (batch : list source_record) : store * counts :=
  fold_left import_one batch (s, {| inserted := 0; skipped := 0 |}).

End Importer.

End PostStore.



(** ** The slippy-map formula, as the specification words it *)

Module Slippy.

Local Open Scope R_scope.

Definition tile_x (lon : R) (zoom : Z) : Z :=
  Zfloor ((lon + 180) / 360 * powerRZ 2 zoom).

Definition tile_y (lat : R) (zoom : Z) : Z :=
  Zfloor ((1 - ln (tan (lat * PI / 180) + 1 / cos (lat * PI / 180)) / PI) / 2
          * powerRZ 2 zoom).

(** The latitudes at which the formula has a value: the secant exists and
    the logarithm is taken of a positive number. *)
Definition defined_at (lat : R) : Prop :=
  cos (lat * PI / 180) <> 0
  /\ 0 < tan (lat * PI / 180) + 1 / cos (lat * PI / 180).

End Slippy.

(** ** Inputs and closed forms used in the statements *)

Module Terms.

Import Main.
Local Open Scope R_scope.


(** The tiles of columns [x0..x1] and rows [y0..y1], column by column. *)
Definition rectangle (x0 x1 y0 y1 zoom : Z) : list Tile.tile :=
  flat_map
    (fun x =>
       map (fun y => {| Tile.x := x; Tile.y := y; Tile.z := zoom |})
           (Loop.zrange y0 y1))
    (Loop.zrange x0 x1).

(** A coordinate that is zero, [null] or [undefined]. *)
Definition falsy (v : value) : Prop := v = Num 0 \/ v = Null \/ v = Undefined.

(** The name a post is grouped under at each level. *)
Definition continent_key (p : post) : option string :=
  option_map (fun s => Str.replace_spaces (Str.toLowerCase s)) (continent p).

(** The coordinates of the posts that have coordinates and carry the name
    [k], in the order of the posts. *)
Definition members (name_of : post -> option string) (k : string)
  (posts : list post) : list (R * R) :=
  flat_map
    (fun p =>
       match coordinates p, name_of p with
       | Some c, Some k' => if String.eqb k' k then [c] else []
       | _, _ => []
       end)
    posts.

(** What a lookup finds in a group object built from [posts]. *)
Definition group_of (name_of : post -> option string) (k : string)
  (posts : list post) : option (list (R * R)) :=
  match members name_of k posts with
  | [] => None
  | cs => Some cs
  end.

(** A name a group is formed for: not empty and not the placeholder. *)
Definition nameable (placeholder k : string) : bool :=
  Str.nonempty k && negb (String.eqb k placeholder).

(** A group after more members were pushed to it. *)
Definition extended (old : option (list (R * R))) (more : list (R * R))
  : option (list (R * R)) :=
  match more with
  | [] => old
  | _ => Some (match old with Some l => l ++ more | None => more end)
  end.

(** The calls of [prefetchBoundsAtZoom] one group gives rise to. *)
Definition calls_for (least : nat) (ratio : R) (zoom1 zoom2 : Z)
  (entry : string * list (R * R)) : list (L.LatLngBounds * Z) :=
  if (least <? List.length (snd entry))%nat then
    match L.latLngBounds (snd entry) with
    | Some bounds => [ (L.pad bounds ratio, zoom1); (L.pad bounds ratio, zoom2) ]
    | None => []
    end
  else [].

(** All the calls of a pass, in the order they are made: continent by
    continent at zoom 4 then 6, country by country at zoom 8 then 10, and
    city by city, for cities with several posts, at zoom 12 then 14. *)
Definition pass_calls (g : groups) : list (L.LatLngBounds * Z) :=
  flat_map (calls_for 0 0.15 4 6) (Obj.entries (regions g))
  ++ flat_map (calls_for 0 0.2 8 10) (Obj.entries (countries g))
  ++ flat_map (calls_for 1 0.3 12 14) (Obj.entries (cities g)).

(** [tilesToFetch] of one call. *)
Definition tiles_to_fetch (call : L.LatLngBounds * Z) : outcome (list Tile.tile) :=
  obind (covering_tiles (getTileBounds (fst call) (snd call)) (snd call))
        (fun tiles => Done (firstn maxTiles tiles)).

Fixpoint omap {A B : Type} (f : A -> outcome B) (l : list A) : outcome (list B) :=
  match l with
  | [] => Done []
  | a :: rest =>
      obind (f a) (fun b => obind (omap f rest) (fun bs => Done (b :: bs)))
  end.

(** The batches a pass starts, one list of tiles per call. *)
Definition batches_started (posts : list post) : outcome (list (list Tile.tile)) :=
  obind (group_posts posts) (fun g => omap tiles_to_fetch (pass_calls g)).

(** The first, synchronous, run of [prefetchNext] of each batch in turn. *)
Definition start (bs : list (list Tile.tile)) (w : world) : world :=
  fold_left (fun w ts => prefetchNext {| tilesToFetch := ts; index := 0 |} w) bs w.

Definition request_for (t : Z) (tile : Tile.tile) : request :=
  {| at_ms := t; target := tile;
     src := tile_url (Tile.x tile) (Tile.y tile) (Tile.z tile) |}.

(** Round [k]: the [k]-th tile of every batch that has one, in the order
    the batches were started, [50 * k] ms after the start. *)
Definition round (t0 : Z) (k : nat) (bs : list (list Tile.tile)) : list request :=
  flat_map
    (fun b =>
       match nth_error b k with
       | Some tile => [ request_for (t0 + 50 * Z.of_nat k)%Z tile ]
       | None => []
       end)
    bs.

Definition depth (bs : list (list Tile.tile)) : nat :=
  fold_right (fun b n => Nat.max (List.length b) n) 0%nat bs.

(** A whole pass: round after round. *)
Definition pass_trace (t0 : Z) (bs : list (list Tile.tile)) : list request :=
  flat_map (fun k => round t0 k bs) (seq 0 (depth bs)).

(** The number of timers a pass sets. *)
Definition total (bs : list (list Tile.tile)) : nat :=
  fold_right (fun b n => (List.length b + n)%nat) 0%nat bs.

(** The batches whose timer is pending when round [k] begins, and the
    timers themselves. *)
Definition alive (k : nat) (bs : list (list Tile.tile)) : list (list Tile.tile) :=
  filter (fun b => (k <=? List.length b)%nat) bs.

Definition timers_at (t : Z) (k : nat) (bs : list (list Tile.tile)) : list (Z * batch) :=
  map (fun b => (t, {| tilesToFetch := b; index := k |})) bs.

(** The requests of one round made at time [t]. *)
Definition round_at (t : Z) (k : nat) (bs : list (list Tile.tile)) : list request :=
  flat_map
    (fun b =>
       match nth_error b k with
       | Some tile => [ request_for t tile ]
       | None => []
       end)
    bs.

(** The number of timers due in rounds [k], ..., [k + m - 1]. *)
Fixpoint firings (k m : nat) (bs : list (list Tile.tile)) : nat :=
  match m with
  | O => 0
  | S m' => (List.length (alive k bs) + firings (S k) m' bs)%nat
  end.

Definition is_timer (e : event) : bool :=
  match e with
  | TimerDue => true
  | _ => false
  end.

(** The tiles of a whole pass in the order they are requested. *)
Definition round_tiles (k : nat) (bs : list (list Tile.tile)) : list Tile.tile :=
  flat_map (fun b => match nth_error b k with Some tile => [tile] | None => [] end) bs.

Definition pass_order (bs : list (list Tile.tile)) : list Tile.tile :=
  flat_map (fun k => round_tiles k bs) (seq 0 (depth bs)).

Definition timer_events (events : list event) : nat :=
  List.length (filter is_timer events).

(** Two posts of one continent, ten degrees of longitude apart. *)
Definition two_posts : list post :=
  [ {| title := "first"; url := "/first/"; latitude := Num 10; longitude := Num (-100);
       continent := Some "Asia"%string; country := None; city := None |};
    {| title := "second"; url := "/second/"; latitude := Num 10; longitude := Num (-90);
       continent := Some "Asia"%string; country := None; city := None |} ]%string.

(** Their only group, its padded bounds and the batches of the pass. *)
Definition two_posts_groups : groups :=
  {| regions := [ ("asia"%string, [ (10, -100); (10, -90) ]) ];
     countries := [];
     cities := [] |}.

Definition two_posts_bounds : L.LatLngBounds :=
  {| L.getSouthWest := {| L.lat := 10; L.lng := -101.5 |};
     L.getNorthEast := {| L.lat := 10; L.lng := -88.5 |} |}.

Definition two_posts_batches : list (list Tile.tile) :=
  [ map (fun x => {| Tile.x := x; Tile.y := Slippy.tile_y 10 4; Tile.z := 4 |})
        [3; 4]%Z;
    map (fun x => {| Tile.x := x; Tile.y := Slippy.tile_y 10 6; Tile.z := 6 |})
        [13; 14; 15; 16]%Z ].


(** A post on the equator. *)
Definition equator_post : post :=
  {| title := "equator"; url := "/equator/"; latitude := Num 0; longitude := Num 5;
     continent := Some "Africa"%string; country := None; city := None |}%string.

(** None of the names a post is grouped under is one that every object
    inherits. *)
Definition plain_names (p : post) : Prop :=
  forall k,
    continent_key p = Some k \/ country p = Some k \/ city p = Some k ->
    Obj.inherited k = false.

(** A post of a city named like a property every object inherits. *)
Definition constructor_post : post :=
  {| title := "odd"; url := "/odd/"; latitude := Num 10; longitude := Num 20;
     continent := None; country := None; city := Some "constructor"%string |}%string.

(** Every request of a lower zoom level is made before every request of a
    higher one. *)
Definition zoom_ascending (l : list request) : Prop :=
  forall i j ri rj,
    nth_error l i = Some ri -> nth_error l j = Some rj ->
    (Tile.z (target ri) < Tile.z (target rj))%Z -> (i < j)%nat.

End Terms.

(** ** Bounds, points and the tile of a point *)

Module Geo.

Local Open Scope R_scope.

(** Bounds whose south-west corner is south and west of the north-east one. *)
Definition ordered (b : L.LatLngBounds) : Prop :=
  L.lat (L.getSouthWest b) <= L.lat (L.getNorthEast b)
  /\ L.lng (L.getSouthWest b) <= L.lng (L.getNorthEast b).

(** A coordinate pair [[lat, lng]] lying within bounds. *)
Definition inside (b : L.LatLngBounds) (c : R * R) : Prop :=
  L.lat (L.getSouthWest b) <= fst c <= L.lat (L.getNorthEast b)
  /\ L.lng (L.getSouthWest b) <= snd c <= L.lng (L.getNorthEast b).



(** No own entry of the object is under a name every object inherits. *)
Definition no_inherited (o : Obj.object (list (R * R))) : Prop :=
  forall k, Obj.inherited k = true -> Obj.own_get o k = None.

Definition clean (g : Main.groups) : Prop :=
  no_inherited (Main.regions g) /\ no_inherited (Main.countries g)
  /\ no_inherited (Main.cities g).

(** A post with all three names. *)
Definition lisbon_post : Main.post :=
  {| Main.title := "Lisbon"; Main.url := "/lisbon/";
     Main.latitude := Main.Num 38.7; Main.longitude := Main.Num (-9.1);
     Main.continent := Some "Europe"%string; Main.country := Some "Portugal"%string;
     Main.city := Some "Lisbon"%string |}%string.

End Geo.

(** ** The service worker *)

Module SW.

Local Open Scope string_scope.

(** What the worker reads of a request: its method and the parts of
    [new URL(event.request.url)]. *)
Record Request : Type := {
  method : string;
  origin : string;
  pathname : string;
  search : string
}.

Record Response : Type := { status : Z; body : string }.

(** [response.ok]: a status from 200 to 299. *)
Definition ok (r : Response) : bool :=
  (200 <=? status r)%Z && (status r <=? 299)%Z.

(** The Cache interface of the platform: what [caches.open] creates,
    [cache.match] and [cache.put].  How requests are compared, and which
    puts are refused, is the platform's. *)
Class Cache (cache : Type) : Type := {
  fresh : cache;
  cache_match : cache -> Request -> option Response;
  cache_put : cache -> Request -> Response -> cache
}.

Definition CACHE_NAME : string := "worldcoffeetour-assets-v1".

(** *** The pattern [/\.(jpg|jpeg|png|gif|webp|svg)$/i] *)

Definition extensions : list string := [ "jpg"; "jpeg"; "png"; "gif"; "webp"; "svg" ].

(** The pattern tried at the start of [s]: a dot, one of the alternatives
    whatever the case of its letters, then the end of the input. *)
Definition image_here (s : string) : bool :=
  match s with
  | String c rest =>
      Ascii.eqb c "." && existsb (String.eqb (Str.toLowerCase rest)) extensions
  | EmptyString => false
  end.

(** [s.match(pattern)]: the pattern is tried at every position from the
    left. *)
Fixpoint matches (s : string) : bool :=
  image_here s
  || match s with
     | EmptyString => false
     | String _ rest => matches rest
     end.

(** *** The worker's state *)

(** The listener is a chain of promises.  It is taken in two steps: from
    the event to the answer of [cache.match] (between [caches.open] and
    [cache.match] no other event is handled), and, on a miss, from the
    settling of [fetch] to the end, [cache.put] taking effect at once.
    Fetches settle in any order.  [CACHE_URLS] is declared by the source
    and never used. *)

(** How [event.respondWith] was settled. *)
Inductive reply : Type :=
| FromCache (r : Response)
| FromNetwork (r : Response)
| NetworkError.

Section Worker.

Context {cache : Type} `{Cache cache}.

(** [location.origin]. *)
Variable location_origin : string.

Record state : Type := {
  storage : list (string * cache);      (* [caches], in creation order *)
  fetching : list Request;              (* [fetch] calls not yet settled *)
  answered : list (Request * reply);
  console : list (string * string)
}.

Definition installed : state :=
  {| storage := []; fetching := []; answered := []; console := [] |}.

Fixpoint lookup (name : string) (st : list (string * cache)) : option cache :=
  match st with
  | [] => None
  | (n, c) :: rest => if String.eqb n name then Some c else lookup name rest
  end.

(** [caches.open(name)] creates the cache when there is none. *)
Definition open (name : string) (st : list (string * cache)) : list (string * cache) :=
  match lookup name st with
  | Some _ => st
  | None => st ++ [ (name, fresh) ]
  end.

(** The cache [caches.open(CACHE_NAME)] resolves to. *)
Definition assets (st : list (string * cache)) : cache :=
  match lookup CACHE_NAME st with
  | Some c => c
  | None => fresh
  end.

Fixpoint update (name : string) (f : cache -> cache) (st : list (string * cache))
  : list (string * cache) :=
  match st with
  | [] => []
  | (n, c) :: rest =>
      if String.eqb n name then (n, f c) :: rest else (n, c) :: update name f rest
  end.

(** [url.origin === location.origin && url.pathname.match(...)]. *)
Definition in_scope (r : Request) : bool :=
  String.eqb (origin r) location_origin && matches (pathname r).

(** The [fetch] listener, up to the point where it waits for the network. *)
Definition on_fetch (r : Request) (s : state) : state :=
  if in_scope r then
    let st := open CACHE_NAME (storage s) in
    match cache_match (assets st) r with
    | Some response =>
        {| storage := st;
           fetching := fetching s;
           answered := answered s ++ [ (r, FromCache response) ];
           console := console s ++ [ ("Serving from cache:", pathname r) ] |}
    | None =>
        {| storage := st;
           fetching := fetching s ++ [ r ];
           answered := answered s;
           console := console s |}
    end
  else s.

Fixpoint remove_nth {A : Type} (i : nat) (l : list A) : list A :=
  match i, l with
  | _, [] => []
  | O, _ :: rest => rest
  | S i', a :: rest => a :: remove_nth i' rest
  end.

(** The rest of the listener: the [i]-th pending [fetch] settles, with a
    response ([Some]) or a network error ([None]). *)
Definition on_settle (i : nat) (result : option Response) (s : state) : state :=
  match nth_error (fetching s) i with
  | None => s
  | Some r =>
      match result with
      | Some fetchResponse =>
          if ok fetchResponse then
            {| storage :=
                 update CACHE_NAME (fun c => cache_put c r fetchResponse) (storage s);
               fetching := remove_nth i (fetching s);
               answered := answered s ++ [ (r, FromNetwork fetchResponse) ];
               console := console s ++ [ ("Cached image:", pathname r) ] |}
          else
            {| storage := storage s;
               fetching := remove_nth i (fetching s);
               answered := answered s ++ [ (r, FromNetwork fetchResponse) ];
               console := console s |}
      | None =>
          {| storage := storage s;
             fetching := remove_nth i (fetching s);
             answered := answered s ++ [ (r, NetworkError) ];
             console := console s |}
      end
  end.

(** The [activate] listener. *)
Definition on_activate (s : state) : state :=
  {| storage := filter (fun e => String.eqb (fst e) CACHE_NAME) (storage s);
     fetching := fetching s;
     answered := answered s;
     console :=
       console s
       ++ map (fun e => ("Deleting old cache:", fst e))
              (filter (fun e => negb (String.eqb (fst e) CACHE_NAME)) (storage s)) |}.

Inductive worker_event : Type :=
| Fetch (r : Request)
| Settle (i : nat) (result : option Response)
| Activate.

Definition handle (s : state) (e : worker_event) : state :=
  match e with
  | Fetch r => on_fetch r s
  | Settle i result => on_settle i result s
  | Activate => on_activate s
  end.

Definition handle_all (events : list worker_event) (s : state) : state :=
  fold_left handle events s.

(** The in-scope requests among the events, and the events that store
    nothing: no settlement with an [ok] response. *)
Definition asked (events : list worker_event) : list Request :=
  flat_map (fun e => match e with
                     | Fetch r => if in_scope r then [ r ] else []
                     | _ => []
                     end) events.

Definition stores_nothing (e : worker_event) : bool :=
  match e with
  | Settle _ (Some response) => negb (ok response)
  | _ => true
  end.

(** Storage holding no cache but the worker's own. *)
Definition only_assets (st : list (string * cache)) : Prop :=
  Forall (fun e => fst e = CACHE_NAME) st.

(** The requests the worker has taken charge of: answered or waiting. *)
Definition in_charge (s : state) : list Request :=
  (map fst (answered s) ++ fetching s)%list.

End Worker.

Arguments state cache : clear implicits.

(** A cache that compares method and URL only, and stores [GET] requests. *)
Definition same_url (a b : Request) : bool :=
  String.eqb (origin a) (origin b) && String.eqb (pathname a) (pathname b)
  && String.eqb (search a) (search b).

#[export] Instance url_cache : Cache (list (Request * Response)) := {
  fresh := [];
  cache_match c r :=
    if String.eqb (method r) "GET"
    then option_map snd (find (fun e => same_url (fst e) r) c)
    else None;
  cache_put c r resp :=
    if String.eqb (method r) "GET"
    then (filter (fun e => negb (same_url (fst e) r)) c ++ [ (r, resp) ])%list
    else c
}.

(** A photograph of the site, and a worker that has it in its cache. *)
Definition photo : Request :=
  {| method := "GET"; origin := "http://localhost:4000";
     pathname := "/assets/images/cup.JPG"; search := "" |}.

Definition photo_cached : state (list (Request * Response)) :=
  {| storage := [ (CACHE_NAME, [ (photo, {| status := 200; body := "cup" |}) ]) ];
     fetching := []; answered := []; console := [] |}.

End SW.

(** ** Lazy loading of images *)

Module Lazy.

Local Open Scope string_scope.

(** An [img] element: its [src] and [data-src] attributes and its classes. *)
Record img : Type := {
  img_src : option string;
  data_src : option string;
  classList : list string
}.

(** A value assigned to [img.src] is converted to a string; [dataset.src]
    is [undefined] when the attribute is missing. *)
Definition to_string (v : option string) : string :=
  match v with
  | Some s => s
  | None => "undefined"
  end.

Record page : Type := {
  images : list img;
  observed : list nat          (* the targets of [imageObserver], by position *)
}.

Record entry : Type := { entry_target : nat; isIntersecting : bool }.

Definition is_lazy (i : img) : bool := existsb (String.eqb "lazy") (classList i).

(** [img.src = img.dataset.src; img.classList.remove('lazy')]. *)
Definition load (i : img) : img :=
  {| img_src := Some (to_string (data_src i));
     data_src := data_src i;
     classList := filter (fun c => negb (String.eqb c "lazy")) (classList i) |}.

Fixpoint update_nth {A : Type} (n : nat) (f : A -> A) (l : list A) : list A :=
  match n, l with
  | _, [] => []
  | O, a :: rest => f a :: rest
  | S n', a :: rest => a :: update_nth n' f rest
  end.

(** The body of [entries.forEach(entry => ...)]. *)
Definition on_entry (p : page) (e : entry) : page :=
  if isIntersecting e then
    {| images := update_nth (entry_target e) load (images p);
       observed := filter (fun j => negb (j =? entry_target e)%nat) (observed p) |}
  else p.

(** The observer's callback. *)
Definition callback (p : page) (entries : list entry) : page :=
  fold_left on_entry entries p.

Fixpoint lazy_from (n : nat) (l : list img) : list nat :=
  match l with
  | [] => []
  | i :: rest => (if is_lazy i then [ n ] else []) ++ lazy_from (S n) rest
  end.

(** [if ('IntersectionObserver' in window) { ... querySelectorAll('img.lazy')
    .forEach(img => imageObserver.observe(img)) }]. *)
Definition setup (supported : bool) (imgs : list img) : page :=
  {| images := imgs;
     observed := if supported then lazy_from 0 imgs else [] |}.

(** Some entry of the batches reports the image at [i] as intersecting. *)
Definition seen (i : nat) (batches : list (list entry)) : bool :=
  existsb (fun e => isIntersecting e && (entry_target e =? i)%nat) (List.concat batches).

(** What a run of callbacks makes of the image at [i], from the entries
    alone. *)
Definition after_entries (es : list entry) (i : nat) (im : img) : img :=
  if existsb (fun e => isIntersecting e && (entry_target e =? i)%nat) es then load im else im.

(** The platform reports on the observer's targets only: every entry of a
    batch is for an element observed when the batch is delivered. *)
Definition delivered (p : page) (b : list entry) : bool :=
  forallb (fun e => existsb (Nat.eqb (entry_target e)) (observed p)) b.

Fixpoint deliveries (p : page) (batches : list (list entry)) : bool :=
  match batches with
  | [] => true
  | b :: rest => delivered p b && deliveries (callback p b) rest
  end.

(** A page with a lazy image and one that is not. *)
Definition gallery : list img :=
  [ {| img_src := None; data_src := Some "/assets/images/cup.JPG"; classList := [ "lazy" ] |};
    {| img_src := Some "/assets/images/joe-profile.jpg"; data_src := None;
       classList := [ "profile-pic" ] |} ].

End Lazy.

(** ** The counters of the about page *)

Module About.

Local Open Scope string_scope.

(** A front-matter value: [nil] or a string. *)
Definition value_eqb (a b : option string) : bool :=
  match a, b with
  | Some x, Some y => String.eqb x y
  | None, None => true
  | _, _ => false
  end.

(** The filter [uniq]: the first occurrence of every value is kept. *)
Fixpoint uniq_from (seen l : list (option string)) : list (option string) :=
  match l with
  | [] => []
  | v :: rest =>
      if existsb (value_eqb v) seen then uniq_from seen rest
      else v :: uniq_from (v :: seen) rest
  end.

Definition uniq (l : list (option string)) : list (option string) := uniq_from [] l.

(** [... | uniq | where_exp: 'country', 'country != "Unknown"']. *)
Definition known (values : list (option string)) : list (option string) :=
  filter (fun v => negb (value_eqb v (Some "Unknown"))) (uniq values).

(** The three numbers shown: [valid_posts.size], [known_countries | size]
    and [known_cities | size]. *)
Definition coffee_stops (valid_posts : list Main.post) : nat := List.length valid_posts.

Definition known_countries (valid_posts : list Main.post) : list (option string) :=
  known (map Main.country valid_posts).

Definition known_cities (valid_posts : list Main.post) : list (option string) :=
  known (map Main.city valid_posts).

End About.

(** ** The index page fitting the map to its markers *)

Module Index.

Import Main.

(** [if (markers.length > 0) map.fitBounds(group.getBounds().pad(0.1))]:
    the bounds of a feature group are those of its markers' positions. *)
Definition fitBounds (coffeePostsData : list post) : option L.LatLngBounds :=
  if (0 <? List.length (markers coffeePostsData))%nat then
    option_map (fun b => L.pad b 0.1%R)
               (L.latLngBounds (map position (markers coffeePostsData)))
  else None.

End Index.

(** ** The development server's pattern for static assets *)

Module Server.

Local Open Scope string_scope.

Definition asset_extensions : list string :=
  [ "jpg"; "jpeg"; "png"; "gif"; "webp"; "svg"; "css"; "js"; "woff"; "woff2" ].

Fixpoint take (n : nat) (s : string) : string :=
  match n, s with
  | S n', String c rest => String c (take n' rest)
  | _, _ => EmptyString
  end.

Fixpoint drop (n : nat) (s : string) : string :=
  match n, s with
  | S n', String _ rest => drop n' rest
  | _, _ => s
  end.

(** Ruby's [$]: the end of the text or of a line. *)
Definition at_line_end (s : string) : bool :=
  match s with
  | EmptyString => true
  | String c _ => Ascii.eqb c "010"
  end.

(** [/\.(jpg|jpeg|png|gif|webp|svg|css|js|woff|woff2)$/i] tried at the
    start of [s]. *)
Definition asset_here (s : string) : bool :=
  match s with
  | String c rest =>
      Ascii.eqb c "."
      && existsb (fun e =>
                    String.eqb (Str.toLowerCase (take (String.length e) rest)) e
                    && at_line_end (drop (String.length e) rest))
                 asset_extensions
  | EmptyString => false
  end.

(** [req.path_info =~ pattern]. *)
Fixpoint static_asset (path_info : string) : bool :=
  asset_here path_info
  || match path_info with
     | EmptyString => false
     | String _ rest => static_asset rest
     end.

End Server.

(** * Properties *)

(** ** Arithmetic on JavaScript numbers *)

Module NumberFacts.

Import JS.
Local Open Scope R_scope.

Lemma Rsign_pos (r : R) : 0 < r -> Rsign r = Gt.
Proof.
  intros H. unfold Rsign.
  destruct (total_order_T r 0) as [[Hlt | Heq] | Hgt]; [lra | lra | reflexivity].
Qed.

Lemma Rsign_neg (r : R) : r < 0 -> Rsign r = Lt.
Proof.
  intros H. unfold Rsign.
  destruct (total_order_T r 0) as [[Hlt | Heq] | Hgt]; [reflexivity | lra | lra].
Qed.

Lemma Rsign_zero (r : R) : r = 0 -> Rsign r = Eq.
Proof.
  intros H. unfold Rsign.
  destruct (total_order_T r 0) as [[Hlt | Heq] | Hgt]; [lra | reflexivity | lra].
Qed.

Lemma Rsign_nonzero (r : R) : r <> 0 -> Rsign r <> Eq.
Proof.
  intros H. unfold Rsign.
  destruct (total_order_T r 0) as [[Hlt | Heq] | Hgt]; [discriminate | lra | discriminate].
Qed.

Lemma div_finite (x y : R) : y <> 0 -> (Fin x / Fin y)%js = Fin (x / y).
Proof.
  intros H. unfold div.
  destruct (Rsign y) eqn:E; try reflexivity.
  exfalso. exact (Rsign_nonzero H E).
Qed.

Lemma log_finite (x : R) : 0 < x -> Math_log (Fin x) = Fin (ln x).
Proof. intros H. unfold Math_log. now rewrite (Rsign_pos H). Qed.

Lemma log_negative (x : R) : x < 0 -> Math_log (Fin x) = NaN.
Proof. intros H. unfold Math_log. now rewrite (Rsign_neg H). Qed.

Lemma pow2_pos (zoom : Z) : 0 < powerRZ 2 zoom.
Proof. apply powerRZ_lt. lra. Qed.

(** The angle of a latitude between the poles has a positive cosine and a
    sine above [-1], so the formula has a value there. *)
Lemma defined_between_poles (lat : R) :
  -90 < lat < 90 -> Slippy.defined_at lat.
Proof.
  intros [Hlo Hhi].
  pose proof PI_RGT_0 as Hpi.
  assert (Hc : 0 < cos (lat * PI / 180)).
  { apply cos_gt_0; nra. }
  split; [lra |].
  pose proof (sin2_cos2 (lat * PI / 180)) as Hsq. unfold Rsqr in Hsq.
  pose proof (SIN_bound (lat * PI / 180)) as [Hs _].
  assert (Hs' : -1 < sin (lat * PI / 180)) by nra.
  unfold tan.
  replace (sin (lat * PI / 180) / cos (lat * PI / 180) + 1 / cos (lat * PI / 180))
    with ((sin (lat * PI / 180) + 1) * / cos (lat * PI / 180)) by (field; lra).
  apply Rmult_lt_0_compat; [lra | now apply Rinv_0_lt_compat].
Qed.

End NumberFacts.

(** ** Tile indices *)

Module TileFacts.

Import JS NumberFacts Main Terms.
Local Open Scope R_scope.

Lemma x_index_slippy (lon : R) (zoom : Z) :
  Math_floor ((Fin lon + Fin 180) / Fin 360 * Math_pow 2 zoom)%js
  = Int (Slippy.tile_x lon zoom).
Proof.
  change (Fin lon + Fin 180)%js with (Fin (lon + 180)).
  rewrite div_finite by lra. reflexivity.
Qed.

Lemma y_index_slippy (lat : R) (zoom : Z) :
  Slippy.defined_at lat ->
  Math_floor
    ((Fin 1
      - Math_log (Math_tan (Fin lat * Math_PI / Fin 180)
                  + Fin 1 / Math_cos (Fin lat * Math_PI / Fin 180))
        / Math_PI)
     / Fin 2 * Math_pow 2 zoom)%js
  = Int (Slippy.tile_y lat zoom).
Proof.
  intros [Hcos Hpos].
  pose proof PI_RGT_0 as Hpi.
  change (Fin lat * Math_PI)%js with (Fin (lat * PI)).
  rewrite (@div_finite (lat * PI) 180) by lra.
  cbn [Math_tan Math_cos].
  rewrite (@div_finite 1 (cos (lat * PI / 180))) by exact Hcos.
  cbn [add].
  rewrite log_finite by exact Hpos.
  unfold Math_PI. rewrite div_finite by lra.
  cbn [sub neg add].
  rewrite div_finite by lra.
  reflexivity.
Qed.

(** Where the formula has no value the program's index is no integer. *)
Lemma y_index_not_integer (lat : R) (zoom : Z) :
  ~ Slippy.defined_at lat ->
  forall n : Z,
    Math_floor
      ((Fin 1
        - Math_log (Math_tan (Fin lat * Math_PI / Fin 180)
                    + Fin 1 / Math_cos (Fin lat * Math_PI / Fin 180))
          / Math_PI)
       / Fin 2 * Math_pow 2 zoom)%js
    <> Int n.
Proof.
  intros Hundef n.
  pose proof PI_RGT_0 as Hpi.
  pose proof (pow2_pos zoom) as Hpow.
  change (Fin lat * Math_PI)%js with (Fin (lat * PI)).
  rewrite (@div_finite (lat * PI) 180) by lra.
  cbn [Math_tan Math_cos].
  destruct (Req_dec_T (cos (lat * PI / 180)) 0) as [Hzero | Hcos].
  - unfold div at 3. rewrite (Rsign_zero Hzero).
    rewrite (@Rsign_pos 1) by lra.
    cbn [signed_inf add Math_log]. unfold Math_PI.
    unfold div at 2. rewrite (Rsign_pos Hpi).
    cbn [sub neg add]. unfold div. rewrite (@Rsign_pos 2) by lra.
    unfold Math_pow, mul. rewrite (Rsign_pos Hpow). discriminate.
  - rewrite (@div_finite 1 (cos (lat * PI / 180))) by exact Hcos.
    cbn [add].
    destruct (Rtotal_order (tan (lat * PI / 180) + 1 / cos (lat * PI / 180)) 0)
      as [Hneg | [Hz | Hpos]].
    + rewrite log_negative by exact Hneg. discriminate.
    + unfold Math_log. rewrite (Rsign_zero Hz). unfold Math_PI.
      unfold div at 2. rewrite (Rsign_pos Hpi).
      cbn [sub neg add]. unfold div. rewrite (@Rsign_pos 2) by lra.
      unfold Math_pow, mul. rewrite (Rsign_pos Hpow). discriminate.
    + exfalso. apply Hundef. split; assumption.
Qed.





End TileFacts.

(** ** The counting loop and the tile rectangle *)

Module LoopFacts.

Import JS Loop Main Terms.
Local Open Scope Z_scope.


Lemma zrange_empty (a b : Z) : b < a -> zrange a b = [].
Proof.
  intros H. unfold zrange.
  replace (Z.to_nat (b - a + 1)) with 0%nat by lia. reflexivity.
Qed.

Lemma zrange_cons (a b : Z) : a <= b -> zrange a b = a :: zrange (a + 1) b.
Proof.
  intros H. unfold zrange.
  replace (Z.to_nat (b - a + 1)) with (S (Z.to_nat (b - (a + 1) + 1))) by lia.
  cbn [seq map]. f_equal; [lia |].
  rewrite <- seq_shift, map_map.
  apply map_ext. intros i. lia.
Qed.


Lemma for_range_int (a b : Z) : for_range (Int a) (Int b) = Done (zrange a b).
Proof.
  unfold for_range. cbn [le].
  destruct (Z.leb_spec a b) as [H | H]; [reflexivity |].
  now rewrite zrange_empty.
Qed.

(** With integer bounds the stepwise loop stops, having visited the range. *)
Lemma for_loop_int (n : nat) :
  forall a b fuel,
    Z.to_nat (b - a + 1) = n -> (n < fuel)%nat ->
    for_loop fuel (Int a) (Int b) = Some (map Int (zrange a b)).
Proof.
  induction n as [| n IH]; intros a b fuel Hn Hfuel;
    (destruct fuel as [| fuel]; [lia |]); cbn [for_loop le incr].
  - destruct (Z.leb_spec a b) as [H | H]; [lia |].
    now rewrite zrange_empty.
  - destruct (Z.leb_spec a b) as [H | H]; [| lia].
    rewrite (IH (a + 1) b fuel) by lia.
    now rewrite (zrange_cons H).
Qed.

(** With a bound that is no integer, a loop whose test succeeds once never
    sees it fail. *)
Lemma for_loop_stuck (fuel : nat) :
  forall i hi,
    le i hi = true ->
    (forall a b, (i, hi) <> (Int a, Int b)) ->
    for_loop fuel i hi = None.
Proof.
  induction fuel as [| fuel IH]; intros i hi Hle Hinf; [reflexivity |].
  cbn [for_loop]. rewrite Hle.
  rewrite IH; [reflexivity | |].
  - destruct i, hi; cbn in *; try reflexivity; try discriminate.
    exfalso. now apply (Hinf z z0).
  - intros a b. destruct i, hi; cbn; try discriminate.
    exfalso. now apply (Hinf z z0).
Qed.

(** The closed form [for_range] agrees with the loop run step by step. *)
Lemma for_range_adequate (lo hi : integer) :
  match for_range lo hi with
  | Done l => exists fuel, for_loop fuel lo hi = Some (map Int l)
  | Diverges => forall fuel, for_loop fuel lo hi = None
  | Throws _ => False
  end.
Proof.
  unfold for_range. destruct (le lo hi) eqn:Hle.
  - destruct lo as [a | | |], hi as [b | | |];
      try (intros fuel; apply for_loop_stuck; [exact Hle | intros; discriminate]).
    exists (S (Z.to_nat (b - a + 1))). apply (@for_loop_int (Z.to_nat (b - a + 1))); lia.
  - exists 1%nat. cbn [for_loop]. now rewrite Hle.
Qed.

Lemma fill_columns (y0 y1 zoom : Z) (xs : list Z) :
  forall tiles,
    ofold (fun tiles x =>
             obind (for_range (Int y0) (Int y1)) (fun ys =>
             Done (tiles ++ map (fun y => {| Tile.x := x; Tile.y := y; Tile.z := zoom |}) ys)))
          xs tiles
    = Done (tiles
            ++ flat_map
                 (fun x => map (fun y => {| Tile.x := x; Tile.y := y; Tile.z := zoom |})
                               (zrange y0 y1))
                 xs).
Proof.
  induction xs as [| x xs IH]; intros tiles; cbn [ofold flat_map].
  - now rewrite app_nil_r.
  - rewrite for_range_int at 1. cbn [obind]. rewrite IH. now rewrite <- app_assoc.
Qed.

(** Between integer bounds the two loops fill [tiles] with the rectangle. *)
Lemma covering_tiles_rectangle (x0 y0 x1 y1 zoom : Z) :
  covering_tiles
    {| TileBounds.min := {| Point.x := Int x0; Point.y := Int y0 |};
       TileBounds.max := {| Point.x := Int x1; Point.y := Int y1 |} |} zoom
  = Done (rectangle x0 x1 y0 y1 zoom).
Proof.
  unfold covering_tiles. cbn [TileBounds.min TileBounds.max Point.x Point.y].
  rewrite for_range_int. cbn [obind]. now rewrite fill_columns.
Qed.


End LoopFacts.

(** ** The tile rectangle of a bounding box *)

Module BoundsFacts.

Import JS Loop Main Terms NumberFacts TileFacts LoopFacts.




End BoundsFacts.

(** ** The URL of a tile *)

Module UrlFacts.

Import Main.
Local Open Scope Z_scope.

(** X5: for tiles whose indices sum to a non-negative number the subdomain
    is taken from ['a','b','c','d'] at position [(x + y) mod 4]. *)
Lemma tile_url_round_robin (x y z : Z) :
  0 <= x + y ->
  exists s : string,
    nth_error subdomains (Z.to_nat ((x + y) mod 4)) = Some s
    /\ tile_url x y z
       = ("https://" ++ s ++ ".basemaps.cartocdn.com/dark_all/"
          ++ Str.of_Z z ++ "/" ++ Str.of_Z x ++ "/" ++ Str.of_Z y ++ ".png")%string.
Proof.
  intros Hsum. unfold tile_url, array_get.
  change (Z.of_nat (List.length subdomains)) with 4.
  rewrite Z.rem_mod_nonneg by lia.
  pose proof (Z.mod_pos_bound (x + y) 4 ltac:(lia)) as Hm.
  destruct (Z.ltb_spec ((x + y) mod 4) 0) as [Hneg | _]; [lia |].
  destruct (nth_error subdomains (Z.to_nat ((x + y) mod 4))) as [s |] eqn:Hs.
  - exists s. split; reflexivity.
  - exfalso. apply nth_error_None in Hs. cbn in Hs. lia.
Qed.

Lemma tile_url_round_robin_witness :
  exists s : string,
    nth_error subdomains (Z.to_nat ((3 + 5) mod 4)) = Some s
    /\ tile_url 3 5 4
       = ("https://" ++ s ++ ".basemaps.cartocdn.com/dark_all/"
          ++ Str.of_Z 4 ++ "/" ++ Str.of_Z 3 ++ "/" ++ Str.of_Z 5 ++ ".png")%string.
Proof. apply (tile_url_round_robin 3 5 4). lia. Defined.

Lemma tile_url_round_robin_example :
  tile_url 3 5 4 = "https://a.basemaps.cartocdn.com/dark_all/4/3/5.png"%string.
Proof. reflexivity. Qed.

(** C8: [prefetchTile] at the tile [(-1, 0)] of zoom 4: the remainder
    [(x + y) % 4] is [-1], the array has nothing there, and the URL asked
    for names the host [undefined.basemaps.cartocdn.com], which is none of
    the four subdomains. *)
Theorem tile_url_negative_sum :
  Z.rem (-1 + 0) 4 = -1
  /\ array_get subdomains (Z.rem (-1 + 0) 4) = None
  /\ tile_url (-1) 0 4
     = "https://undefined.basemaps.cartocdn.com/dark_all/4/-1/0.png"%string
  /\ forall s, In s subdomains ->
       tile_url (-1) 0 4
       <> ("https://" ++ s ++ ".basemaps.cartocdn.com/dark_all/4/-1/0.png")%string.
Proof.
  repeat split.
  intros s Hs. cbn in Hs.
  destruct Hs as [<- | [<- | [<- | [<- | []]]]]; discriminate.
Qed.

End UrlFacts.

(** ** Objects used as maps *)

Module ObjFacts.

Import Obj.

Lemma NoDup_snoc {A : Type} (l : list A) (a : A) :
  NoDup l -> ~ In a l -> NoDup (l ++ [a]).
Proof.
  induction l as [| b l IH]; intros Hnd Hin; cbn.
  - constructor; [tauto | constructor].
  - inversion Hnd as [| ? ? Hb Hl]; subst.
    constructor.
    + rewrite in_app_iff. cbn. intros [H | [H | []]]; [tauto |].
      apply Hin. now left.
    + apply IH; [exact Hl |]. intros H. apply Hin. now right.
Qed.

Section Lookup.

Context {V : Type}.
Implicit Types (o : Obj.object V) (k : string) (v : V).

Lemma own_get_set_same o k v :
  own_get o k <> None -> own_get (own_set o k v) k = Some v.
Proof.
  induction o as [| [k' v'] o IH]; cbn; [congruence |].
  destruct (String.eqb k' k) eqn:E; cbn; rewrite E; auto.
Qed.

Lemma own_get_set_other o k k' v :
  k <> k' -> own_get (own_set o k v) k' = own_get o k'.
Proof.
  intros Hne. induction o as [| [k0 v0] o IH]; cbn; [reflexivity |].
  destruct (String.eqb k0 k) eqn:E; cbn.
  - apply String.eqb_eq in E. subst k0.
    now rewrite (proj2 (String.eqb_neq _ _) Hne).
  - now rewrite IH.
Qed.

Lemma own_get_app_new o k k' v :
  own_get (o ++ [(k, v)]) k'
  = match own_get o k' with
    | Some a => Some a
    | None => if String.eqb k k' then Some v else None
    end.
Proof.
  induction o as [| [k0 v0] o IH]; cbn; [reflexivity |].
  destruct (String.eqb k0 k'); auto.
Qed.




Lemma entry_of_own_get o k v : own_get o k = Some v -> In (k, v) o.
Proof.
  induction o as [| [k' v'] o IH]; cbn; [discriminate |].
  destruct (String.eqb k' k) eqn:E.
  - apply String.eqb_eq in E. subst k'. intros [= ->]. now left.
  - intros H. right. now apply IH.
Qed.



End Lookup.

Section Push.

Context {V : Type}.
Implicit Types (o : Obj.object (list V)) (k : string) (v : V).

Lemma push_to_get o k v o' :
  push_to o k v = Done o' ->
  forall k',
    own_get o' k'
    = if String.eqb k k'
      then Some (match own_get o k with Some l => l ++ [v] | None => [v] end)
      else own_get o k'.
Proof.
  unfold push_to. intros H k'.
  destruct (own_get o k) as [arr |] eqn:Hget.
  - injection H as <-.
    destruct (String.eqb k k') eqn:E.
    + apply String.eqb_eq in E. subst k'.
      apply own_get_set_same. congruence.
    + apply String.eqb_neq in E. now apply own_get_set_other.
  - destruct (inherited k); [discriminate |]. injection H as <-.
    rewrite own_get_app_new.
    destruct (String.eqb k k') eqn:E.
    + apply String.eqb_eq in E. subst k'. now rewrite Hget.
    + now destruct (own_get o k').
Qed.


Lemma push_to_not_diverges o k v : push_to o k v <> Diverges.
Proof.
  unfold push_to. destruct (own_get o k); [discriminate |].
  destruct (inherited k); discriminate.
Qed.

Lemma push_to_done o k v :
  inherited k = false -> exists o', push_to o k v = Done o'.
Proof.
  intros H. unfold push_to. destruct (own_get o k); [eauto |].
  rewrite H. eauto.
Qed.

End Push.

End ObjFacts.

(** ** Grouping the posts *)

Module GroupFacts.

Import Obj Main Terms ObjFacts.

Lemma ofold_app {A S : Type} (f : S -> A -> outcome S) (l1 l2 : list A) (s : S) :
  ofold f (l1 ++ l2) s = obind (ofold f l1 s) (ofold f l2).
Proof.
  revert s. induction l1 as [| a l1 IH]; intros s; cbn; [reflexivity |].
  destruct (f s a); cbn; auto.
Qed.

Lemma truthy_zero : truthy (Num 0) = false.
Proof. cbn. destruct (Req_dec_T 0 0) as [_ | H]; [reflexivity | now elim H]. Qed.

Lemma truthy_nonzero (r : R) : r <> 0%R -> truthy (Num r) = true.
Proof. intros H. cbn. destruct (Req_dec_T r 0) as [E | _]; [now elim H | reflexivity]. Qed.

Lemma falsy_not_truthy (v : value) : falsy v -> truthy v = false.
Proof. intros [-> | [-> | ->]]; [apply truthy_zero | reflexivity | reflexivity]. Qed.

Lemma coordinates_none (p : post) :
  falsy (latitude p) \/ falsy (longitude p) -> coordinates p = None.
Proof.
  intros [H | H]; unfold coordinates; rewrite (falsy_not_truthy H);
    [reflexivity | now rewrite andb_false_r].
Qed.

Lemma coordinates_some (p : post) (la lo : R) :
  latitude p = Num la -> longitude p = Num lo -> la <> 0%R -> lo <> 0%R ->
  coordinates p = Some (la, lo).
Proof.
  intros Hla Hlo Hla0 Hlo0. unfold coordinates. rewrite Hla, Hlo.
  now rewrite !truthy_nonzero.
Qed.

Lemma extended_extended old a b :
  extended (extended old a) b = extended old (a ++ b).
Proof.
  destruct a as [| x a]; [reflexivity |].
  destruct b as [| y b]; cbn; [now rewrite app_nil_r |].
  destruct old; cbn; now rewrite <- ?app_assoc.
Qed.

Lemma group_under_members o name placeholder c o' :
  group_under o name placeholder c = Done o' ->
  forall k,
    own_get o' k
    = if nameable placeholder k
      then extended (own_get o k)
             (match name with
              | Some k' => if String.eqb k' k then [c] else []
              | None => []
              end)
      else own_get o k.
Proof.
  unfold group_under. intros H k.
  destruct name as [n |].
  - fold (nameable placeholder n) in H.
    destruct (nameable placeholder n) eqn:Hn.
    + rewrite (push_to_get _ _ _ H).
      destruct (String.eqb n k) eqn:E.
      * apply String.eqb_eq in E. subst n. rewrite Hn. cbn.
        now destruct (own_get o k).
      * now destruct (nameable placeholder k).
    + injection H as <-.
      destruct (String.eqb n k) eqn:E.
      * apply String.eqb_eq in E. subst n. now rewrite Hn.
      * now destruct (nameable placeholder k).
  - injection H as <-. now destruct (nameable placeholder k).
Qed.


Lemma group_under_not_diverges o name placeholder c :
  group_under o name placeholder c <> Diverges.
Proof.
  unfold group_under. destruct name as [n |]; [| discriminate].
  destruct (Str.nonempty n && negb (String.eqb n placeholder)); [| discriminate].
  apply push_to_not_diverges.
Qed.

Lemma group_post_members g p g' :
  group_post g p = Done g' ->
  forall k,
    own_get (regions g') k
    = (if nameable "unknown" k
       then extended (own_get (regions g) k) (members continent_key k [p])
       else own_get (regions g) k)
    /\ own_get (countries g') k
       = (if nameable "Unknown" k
          then extended (own_get (countries g) k) (members country k [p])
          else own_get (countries g) k)
    /\ own_get (cities g') k
       = (if nameable "Unknown" k
          then extended (own_get (cities g) k) (members city k [p])
          else own_get (cities g) k).
Proof.
  unfold group_post, members. cbn [flat_map]. intros H k.
  destruct (coordinates p) as [c |].
  - fold (continent_key p) in H.
    destruct (group_under (regions g) (continent_key p) "unknown" c) as [r | |] eqn:Hr;
      try discriminate. cbn [obind] in H.
    destruct (group_under (countries g) (country p) "Unknown" c) as [cs | |] eqn:Hcs;
      try discriminate. cbn [obind] in H.
    destruct (group_under (cities g) (city p) "Unknown" c) as [ci | |] eqn:Hci;
      try discriminate. cbn [obind] in H.
    injection H as <-. cbn [regions countries cities].
    rewrite (group_under_members _ _ _ _ Hr k), (group_under_members _ _ _ _ Hcs k),
      (group_under_members _ _ _ _ Hci k).
    repeat split.
    + destruct (continent_key p) as [n |]; [destruct (String.eqb n k) |]; reflexivity.
    + destruct (country p) as [n |]; [destruct (String.eqb n k) |]; reflexivity.
    + destruct (city p) as [n |]; [destruct (String.eqb n k) |]; reflexivity.
  - injection H as <-. cbn [extended app].
    repeat split; match goal with |- _ = if ?b then _ else _ => now destruct b end.
Qed.

Lemma members_cons name_of k p posts :
  members name_of k (p :: posts) = members name_of k [p] ++ members name_of k posts.
Proof. unfold members. cbn [flat_map]. now rewrite app_nil_r. Qed.

Lemma ofold_group_members posts :
  forall g g',
    ofold group_post posts g = Done g' ->
    forall k,
      own_get (regions g') k
      = (if nameable "unknown" k
         then extended (own_get (regions g) k) (members continent_key k posts)
         else own_get (regions g) k)
      /\ own_get (countries g') k
         = (if nameable "Unknown" k
            then extended (own_get (countries g) k) (members country k posts)
            else own_get (countries g) k)
      /\ own_get (cities g') k
         = (if nameable "Unknown" k
            then extended (own_get (cities g) k) (members city k posts)
            else own_get (cities g) k).
Proof.
  induction posts as [| p posts IH]; intros g g' H k.
  - injection H as <-. cbn.
    repeat split; match goal with |- _ = if ?b then _ else _ => now destruct b end.
  - cbn [ofold] in H.
    destruct (group_post g p) as [g1 | |] eqn:Hstep; try discriminate.
    cbn [obind] in H.
    destruct (IH _ _ H k) as (Hr & Hc & Hi).
    destruct (group_post_members _ _ Hstep k) as (Hr1 & Hc1 & Hi1).
    rewrite Hr, Hc, Hi, Hr1, Hc1, Hi1, !(members_cons _ k p posts).
    repeat split;
      match goal with |- _ = if ?b then _ else _ =>
        destruct b; [apply extended_extended | reflexivity] end.
Qed.

(** The groups of a whole list of posts: under every name a group is formed
    for, the coordinates of the posts carrying it; nothing elsewhere. *)
Lemma group_posts_members posts g :
  group_posts posts = Done g ->
  forall k,
    own_get (regions g) k
    = (if nameable "unknown" k then group_of continent_key k posts else None)
    /\ own_get (countries g) k
       = (if nameable "Unknown" k then group_of country k posts else None)
    /\ own_get (cities g) k
       = (if nameable "Unknown" k then group_of city k posts else None).
Proof.
  intros H k. destruct (ofold_group_members _ _ H k) as (Hr & Hc & Hi).
  rewrite Hr, Hc, Hi. unfold group_of. cbn [no_groups regions countries cities own_get].
  repeat split;
    match goal with |- (if ?b then extended None ?m else _) = _ =>
      destruct b; [now destruct m | reflexivity] end.
Qed.



Lemma group_post_not_diverges g p : group_post g p <> Diverges.
Proof.
  unfold group_post. destruct (coordinates p) as [c |]; [| discriminate].
  destruct (group_under (regions g) _ "unknown" c) eqn:Hr; cbn [obind];
    [| discriminate | now apply group_under_not_diverges in Hr].
  destruct (group_under (countries g) (country p) "Unknown" c) eqn:Hcs; cbn [obind];
    [| discriminate | now apply group_under_not_diverges in Hcs].
  destruct (group_under (cities g) (city p) "Unknown" c) eqn:Hci; cbn [obind];
    [discriminate | discriminate | now apply group_under_not_diverges in Hci].
Qed.

Lemma group_under_done o name placeholder c :
  (forall k, name = Some k -> inherited k = false) ->
  exists o', group_under o name placeholder c = Done o'.
Proof.
  intros Hplain. unfold group_under. destruct name as [k |]; [| eauto].
  destruct (Str.nonempty k && negb (String.eqb k placeholder)); [| eauto].
  apply push_to_done. now apply Hplain.
Qed.

(** The grouping returns when no name is one that every object inherits. *)
Lemma group_posts_returns posts :
  (forall p, In p posts -> plain_names p) ->
  exists g, group_posts posts = Done g.
Proof.
  unfold group_posts. generalize no_groups.
  induction posts as [| p posts IH]; intros g Hall; cbn [ofold]; [eauto |].
  assert (Hp : plain_names p) by (apply Hall; now left).
  assert (Hstep : exists g', group_post g p = Done g').
  { unfold group_post. destruct (coordinates p) as [c |]; [| eauto].
    fold (continent_key p).
    destruct (@group_under_done (regions g) (continent_key p) "unknown" c) as [r ->].
    { intros k Hk. apply Hp. now left. }
    destruct (@group_under_done (countries g) (country p) "Unknown" c) as [cs ->].
    { intros k Hk. apply Hp. right. now left. }
    destruct (@group_under_done (cities g) (city p) "Unknown" c) as [ci ->].
    { intros k Hk. apply Hp. right. now right. }
    cbn [obind]. eauto. }
  destruct Hstep as [g' ->]. cbn [obind].
  apply IH. intros q Hq. apply Hall. now right.
Qed.

(** A city named ["constructor"] makes the grouping throw. *)
Lemma group_posts_constructor_throws :
  group_posts [constructor_post] = Throws "TypeError: push is not a function".
Proof.
  unfold group_posts, constructor_post. cbn [ofold]. unfold group_post.
  rewrite (@coordinates_some _ 10 20) by (try reflexivity; lra).
  reflexivity.
Qed.


End GroupFacts.

(** ** A prefetch pass as a list of batches *)

Module PassFacts.

Import JS Loop Main Terms GroupFacts.

Lemma omap_app {A B : Type} (f : A -> outcome B) (l1 l2 : list A) :
  omap f (l1 ++ l2)
  = obind (omap f l1) (fun a => obind (omap f l2) (fun b => Done (a ++ b))).
Proof.
  induction l1 as [| x l1 IH]; cbn.
  - now destruct (omap f l2).
  - destruct (f x); cbn; [| reflexivity | reflexivity].
    rewrite IH. destruct (omap f l1); cbn; [| reflexivity | reflexivity].
    now destruct (omap f l2).
Qed.

Lemma start_app (a b : list (list Tile.tile)) (w : world) :
  start (a ++ b) w = start b (start a w).
Proof. unfold start. apply fold_left_app. Qed.

Lemma prefetchBoundsAtZoom_start bounds zoom w :
  prefetchBoundsAtZoom true bounds zoom w
  = obind (tiles_to_fetch (bounds, zoom))
          (fun ts => Done (prefetchNext {| tilesToFetch := ts; index := 0 |} w)).
Proof.
  unfold prefetchBoundsAtZoom, tiles_to_fetch. cbn [negb fst snd].
  now destruct (covering_tiles (getTileBounds bounds zoom) zoom).
Qed.

Lemma prefetch_group_calls least ratio zoom1 zoom2 w entry :
  prefetch_group true least ratio zoom1 zoom2 w entry
  = obind (omap tiles_to_fetch (calls_for least ratio zoom1 zoom2 entry))
          (fun bs => Done (start bs w)).
Proof.
  unfold prefetch_group, calls_for.
  destruct (least <? List.length (snd entry))%nat eqn:Hlen; [| reflexivity].
  destruct (L.latLngBounds (snd entry)) as [bounds |] eqn:Hb.
  - cbn [omap]. rewrite !prefetchBoundsAtZoom_start.
    destruct (tiles_to_fetch (L.pad bounds ratio, zoom1)) as [ts1 | |];
      cbn [obind]; [| reflexivity | reflexivity].
    rewrite prefetchBoundsAtZoom_start.
    now destruct (tiles_to_fetch (L.pad bounds ratio, zoom2)).
  - exfalso. unfold L.latLngBounds in Hb.
    destruct (snd entry); [| discriminate].
    apply Nat.ltb_lt in Hlen. cbn in Hlen. lia.
Qed.

Lemma forEach_group_calls least ratio zoom1 zoom2 entries :
  forall w,
    ofold (prefetch_group true least ratio zoom1 zoom2) entries w
    = obind (omap tiles_to_fetch (flat_map (calls_for least ratio zoom1 zoom2) entries))
            (fun bs => Done (start bs w)).
Proof.
  induction entries as [| e entries IH]; intros w; cbn [ofold flat_map]; [reflexivity |].
  rewrite prefetch_group_calls, omap_app.
  destruct (omap tiles_to_fetch (calls_for least ratio zoom1 zoom2 e)) as [bs1 | |];
    cbn [obind]; [| reflexivity | reflexivity].
  rewrite IH.
  destruct (omap tiles_to_fetch (flat_map _ entries)) as [bs2 | |];
    cbn [obind]; [| reflexivity | reflexivity].
  now rewrite start_app.
Qed.

(** A pass groups the posts, computes the tiles of every call in order and
    starts the batches one after another. *)
Lemma pass_started posts w :
  prefetchTilesForCoffeePosts true (Some posts) w
  = obind (batches_started posts) (fun bs => Done (start bs w)).
Proof.
  unfold prefetchTilesForCoffeePosts, batches_started, pass_calls.
  destruct (group_posts posts) as [g | |]; cbn [obind]; [| reflexivity | reflexivity].
  rewrite !omap_app, forEach_group_calls.
  destruct (omap tiles_to_fetch (flat_map (calls_for 0 0.15 4 6) _)) as [a | |];
    cbn [obind]; [| reflexivity | reflexivity].
  rewrite forEach_group_calls.
  destruct (omap tiles_to_fetch (flat_map (calls_for 0 0.2 8 10) _)) as [b | |];
    cbn [obind]; [| reflexivity | reflexivity].
  rewrite forEach_group_calls.
  destruct (omap tiles_to_fetch (flat_map (calls_for 1 0.3 12 14) _)) as [c | |];
    cbn [obind]; [| reflexivity | reflexivity].
  now rewrite !start_app.
Qed.

Lemma prefetchNext_step (b : list Tile.tile) (k : nat) (w : world) :
  prefetchNext {| tilesToFetch := b; index := k |} w
  = match nth_error b k with
    | Some tile =>
        {| now := now w;
           timers := timers w ++ [ ((now w + 50)%Z, {| tilesToFetch := b; index := S k |}) ];
           requests := requests w ++ [ request_for (now w) tile ] |}
    | None => w
    end.
Proof.
  unfold prefetchNext. cbn [tilesToFetch index].
  destruct (nth_error b k) as [tile |] eqn:Hnth.
  - destruct (Nat.leb_spec (List.length b) k) as [Hle | _];
      [| now destruct tile].
    apply nth_error_None in Hle. congruence.
  - now destruct (List.length b <=? k)%nat.
Qed.

(** After the synchronous part of a pass: the first tile of every batch has
    been requested and every batch that had one waits for its timer. *)
Lemma start_world (bs : list (list Tile.tile)) :
  forall w,
    start bs w
    = {| now := now w;
         timers := timers w ++ timers_at (now w + 50) 1 (alive 1 bs);
         requests := requests w ++ round_at (now w) 0 bs |}.
Proof.
  induction bs as [| b bs IH]; intros w.
  - cbn. rewrite !app_nil_r. now destruct w.
  - unfold start in *. cbn [fold_left]. rewrite IH, prefetchNext_step.
    unfold alive, round_at, timers_at. cbn [filter flat_map].
    destruct b as [| tile b]; cbn [nth_error List.length Nat.leb now timers requests map app].
    + reflexivity.
    + now rewrite <- !app_assoc.
Qed.

End PassFacts.

(** ** The event loop *)

Module EventFacts.

Import Main Terms PassFacts.
Local Open Scope Z_scope.

Lemma run_app (a b : list event) (w : world) : run (a ++ b) w = run b (run a w).
Proof. unfold run. apply fold_left_app. Qed.

Lemma take_earliest_in (ts : list (Z * batch)) :
  forall m others, take_earliest ts = Some (m, others) -> In m ts.
Proof.
  induction ts as [| t ts IH]; intros m others H; [discriminate |].
  cbn [take_earliest] in H.
  destruct (take_earliest ts) as [[m' others'] |].
  - destruct (fst t <=? fst m'); injection H as <- <-;
      [now left | right; eapply IH; reflexivity].
  - injection H as <- <-. now left.
Qed.

Lemma take_earliest_none (ts : list (Z * batch)) :
  take_earliest ts = None -> ts = [].
Proof.
  destruct ts as [| t ts]; [reflexivity |]. cbn [take_earliest].
  destruct (take_earliest ts) as [[m others] |]; [| discriminate].
  destruct (fst t <=? fst m); discriminate.
Qed.

(** The timer at the head of the queue fires first when none is earlier. *)
Lemma take_earliest_head (t : Z * batch) (rest : list (Z * batch)) :
  (forall t', In t' rest -> fst t <= fst t') ->
  take_earliest (t :: rest) = Some (t, rest).
Proof.
  intros Hle. cbn [take_earliest].
  destruct (take_earliest rest) as [[m others] |] eqn:Hrest.
  - pose proof (Hle m (take_earliest_in _ Hrest)) as Hm.
    destruct (Z.leb_spec (fst t) (fst m)); [reflexivity | lia].
  - now rewrite (take_earliest_none _ Hrest).
Qed.

Lemma fire_idle (w : world) : timers w = [] -> fire w = w.
Proof. unfold fire. now intros ->. Qed.

Lemma run_idle (n : nat) (w : world) :
  timers w = [] -> run (repeat TimerDue n) w = w.
Proof.
  intros H. induction n as [| n IH]; [reflexivity |].
  cbn [repeat]. unfold run in *. cbn [fold_left dispatch].
  now rewrite (fire_idle _ H).
Qed.

(** One round: the timers of the batches [l], all due at [T], fire in
    order; each batch with a [k]-th tile requests it and waits again. *)
Lemma run_round (T : Z) (k : nat) (l : list (list Tile.tile)) :
  forall (q : list (Z * batch)) (R : list request) (n0 : Z),
    (forall t, In t q -> T <= fst t) ->
    run (repeat TimerDue (List.length l))
        {| now := n0; timers := timers_at T k l ++ q; requests := R |}
    = {| now := match l with [] => n0 | _ => T end;
         timers := q ++ timers_at (T + 50) (S k) (alive (S k) l);
         requests := R ++ round_at T k l |}.
Proof.
  induction l as [| b l IH]; intros q R n0 Hq.
  - cbn. now rewrite !app_nil_r.
  - cbn [List.length repeat]. unfold run. cbn [fold_left dispatch]. fold (run (repeat TimerDue (List.length l))).
    unfold fire. cbn [timers timers_at map app].
    rewrite take_earliest_head.
    2:{ intros t Ht. apply in_app_or in Ht. destruct Ht as [Ht | Ht].
        - unfold timers_at in Ht. apply in_map_iff in Ht.
          destruct Ht as (b' & <- & _). cbn. lia.
        - cbn. now apply Hq. }
    rewrite prefetchNext_step. cbn [requests now timers].
    unfold alive, round_at. cbn [filter flat_map].
    fold (alive (S k) l). fold (round_at T k l). fold (timers_at T k l).
    destruct (nth_error b k) as [tile |] eqn:Hnth.
    + assert (Hlen : (S k <=? List.length b)%nat = true).
      { apply Nat.leb_le.
        assert (k < List.length b)%nat by (apply nth_error_Some; congruence). lia. }
      rewrite Hlen. rewrite <- app_assoc.
      rewrite IH.
      2:{ intros t Ht. apply in_app_or in Ht. destruct Ht as [Ht | [<- | []]];
          [now apply Hq | cbn; lia]. }
      cbn [timers_at map]. rewrite <- !app_assoc. cbn [app].
      now destruct l.
    + assert (Hlen : (S k <=? List.length b)%nat = false).
      { apply Nat.leb_gt. apply nth_error_None in Hnth. lia. }
      rewrite Hlen. rewrite IH by exact Hq. cbn [app].
      now destruct l.
Qed.

Lemma alive_alive (k : nat) (bs : list (list Tile.tile)) :
  alive (S k) (alive k bs) = alive (S k) bs.
Proof.
  unfold alive. induction bs as [| b bs IH]; [reflexivity |]. cbn [filter].
  destruct (Nat.leb_spec k (List.length b)) as [Hk | Hk]; cbn [filter].
  - now rewrite IH.
  - destruct (Nat.leb_spec (S k) (List.length b)); [lia | exact IH].
Qed.

Lemma round_at_alive (T : Z) (k : nat) (bs : list (list Tile.tile)) :
  round_at T k (alive k bs) = round_at T k bs.
Proof.
  unfold alive, round_at. induction bs as [| b bs IH]; [reflexivity |]. cbn [filter flat_map].
  destruct (Nat.leb_spec k (List.length b)) as [Hk | Hk]; cbn [flat_map].
  - now rewrite IH.
  - rewrite IH. replace (nth_error b k) with (@None Tile.tile); [reflexivity |].
    symmetry. apply nth_error_None. lia.
Qed.

Lemma length_le_depth (bs : list (list Tile.tile)) (b : list Tile.tile) :
  In b bs -> (List.length b <= depth bs)%nat.
Proof.
  induction bs as [| c bs IH]; [intros [] |].
  unfold depth. cbn [fold_right]. fold (depth bs).
  intros [-> | H]; [lia |]. specialize (IH H). lia.
Qed.

Lemma depth_cons (b : list Tile.tile) (bs : list (list Tile.tile)) :
  depth (b :: bs) = Nat.max (List.length b) (depth bs).
Proof. reflexivity. Qed.

Lemma round_beyond_depth (t0 : Z) (j : nat) (bs : list (list Tile.tile)) :
  (depth bs <= j)%nat -> round t0 j bs = [].
Proof.
  intros Hj. unfold round.
  assert (Hall : forall b, In b bs -> nth_error b j = None).
  { intros b Hb. apply nth_error_None. pose proof (length_le_depth _ _ Hb). lia. }
  induction bs as [| b bs IH]; [reflexivity |]. cbn [flat_map].
  rewrite (Hall b (or_introl eq_refl)). cbn [app].
  apply IH; [rewrite depth_cons in Hj; lia |]. intros c Hc. apply Hall. now right.
Qed.

Lemma alive_beyond_depth (k : nat) (bs : list (list Tile.tile)) :
  (depth bs < k)%nat -> alive k bs = [].
Proof.
  intros Hk. unfold alive.
  assert (Hall : forall b, In b bs -> (List.length b < k)%nat).
  { intros b Hb. pose proof (length_le_depth _ _ Hb). lia. }
  induction bs as [| b bs IH]; [reflexivity |]. cbn [filter].
  pose proof (Hall b (or_introl eq_refl)).
  destruct (Nat.leb_spec k (List.length b)); [lia |].
  apply IH; [rewrite depth_cons in Hk; lia |]. intros c Hc. apply Hall. now right.
Qed.

Lemma firings_cons (m : nat) :
  forall k b bs, firings k m (b :: bs) = (firings k m [b] + firings k m bs)%nat.
Proof.
  induction m as [| m IH]; intros k b bs; [reflexivity |]. cbn [firings].
  rewrite (IH (S k) b bs). unfold alive. cbn [filter].
  destruct (k <=? List.length b)%nat; cbn [List.length]; lia.
Qed.

Lemma firings_one (m : nat) :
  forall k b, (firings (S k) m [b] <= List.length b - k)%nat.
Proof.
  induction m as [| m IH]; intros k b; cbn [firings]; [lia |].
  specialize (IH (S k) b). unfold alive. cbn [filter].
  destruct (Nat.leb_spec (S k) (List.length b)); cbn [List.length]; lia.
Qed.

Lemma firings_le_total (m : nat) (bs : list (list Tile.tile)) :
  (firings 1 m bs <= total bs)%nat.
Proof.
  induction bs as [| b bs IH].
  - clear. generalize 1%nat. induction m as [| m IH]; intros k; cbn; [lia |]. apply IH.
  - rewrite firings_cons. cbn [total fold_right]. fold (total bs).
    pose proof (firings_one m 0 b). lia.
Qed.

(** From the beginning of round [k] on: when no batch outlives round
    [k + m - 1], enough timer events empty the queue and issue the rounds
    [k], ..., [k + m - 1] one after another. *)
Lemma drain (t0 : Z) (bs : list (list Tile.tile)) (m : nat) :
  forall (k : nat) (n0 : Z) (R : list request) (n : nat),
    alive (k + m) bs = [] ->
    (firings k m bs <= n)%nat ->
    let w := run (repeat TimerDue n)
                 {| now := n0;
                    timers := timers_at (t0 + 50 * Z.of_nat k) k (alive k bs);
                    requests := R |} in
    timers w = [] /\ requests w = R ++ flat_map (fun j => round t0 j bs) (seq k m).
Proof.
  induction m as [| m IH]; intros k n0 R n Hdead Hn w; subst w.
  - rewrite Nat.add_0_r in Hdead. rewrite Hdead. cbn [timers_at map].
    rewrite run_idle by reflexivity. cbn. now rewrite app_nil_r.
  - cbn [firings] in Hn.
    replace n with (List.length (alive k bs) + (n - List.length (alive k bs)))%nat by lia.
    rewrite repeat_app, run_app.
    pose proof (@run_round (t0 + 50 * Z.of_nat k) k (alive k bs) [] R n0) as Hround.
    rewrite app_nil_r in Hround. rewrite Hround by (intros t []).
    cbn [app]. rewrite alive_alive, round_at_alive.
    replace (t0 + 50 * Z.of_nat k + 50) with (t0 + 50 * Z.of_nat (S k)) by lia.
    destruct (IH (S k) (match alive k bs with [] => n0 | _ => t0 + 50 * Z.of_nat k end)
                 (R ++ round_at (t0 + 50 * Z.of_nat k) k bs)
                 (n - List.length (alive k bs))%nat) as [Ht Hr].
    + now rewrite Nat.add_succ_comm.
    + lia.
    + split; [exact Ht |]. rewrite Hr. cbn [seq flat_map].
      now rewrite <- app_assoc.
Qed.

(** A whole pass, once every timer has fired: no timer is left and the
    requests are the rounds in order. *)
Lemma pass_complete (bs : list (list Tile.tile)) (t0 : Z) (n : nat) :
  (total bs <= n)%nat ->
  let w := run (repeat TimerDue n) (start bs (page_at t0)) in
  timers w = [] /\ requests w = pass_trace t0 bs.
Proof.
  intros Hn w. subst w. rewrite start_world. cbn [page_at now timers requests app].
  pose proof (firings_le_total (depth bs) bs) as Hf.
  destruct (@drain t0 bs (depth bs) 1 t0 (round_at t0 0 bs) n) as [Ht Hr].
  - apply alive_beyond_depth. lia.
  - lia.
  - replace (t0 + 50 * Z.of_nat 1) with (t0 + 50) in Ht, Hr by lia.
    split; [exact Ht |]. rewrite Hr. unfold pass_trace.
    assert (H0 : round_at t0 0 bs = round t0 0 bs).
    { unfold round. now replace (t0 + 50 * Z.of_nat 0) with t0 by lia. }
    destruct (depth bs) as [| d] eqn:Hd.
    + cbn. rewrite app_nil_r, H0. apply round_beyond_depth. lia.
    + rewrite (seq_S d 1), flat_map_app. cbn [flat_map seq].
      rewrite (@round_beyond_depth t0 (1 + d)%nat bs) by lia.
      now rewrite !app_nil_r, H0.
Qed.

(** The image handlers leave the page as it is: only timers matter. *)
Lemma run_timers_only (events : list event) :
  forall w, run events w = run (filter is_timer events) w.
Proof.
  induction events as [| e events IH]; intros w; [reflexivity |].
  destruct e; cbn [filter is_timer]; unfold run in *; cbn [fold_left dispatch];
    unfold img_onload, img_onerror; apply IH.
Qed.

Lemma filter_timers_repeat (events : list event) :
  filter is_timer events = repeat TimerDue (timer_events events).
Proof.
  unfold timer_events. induction events as [| e events IH]; [reflexivity |].
  destruct e; cbn [filter is_timer List.length repeat]; congruence.
Qed.

Lemma timer_events_more (events : list event) (n : nat) :
  timer_events (events ++ repeat TimerDue n) = (timer_events events + n)%nat.
Proof.
  unfold timer_events. rewrite filter_app, length_app. f_equal.
  induction n as [| n IH]; [reflexivity |]. cbn. now rewrite IH.
Qed.

Lemma run_as_timers (events : list event) (w : world) :
  run events w = run (repeat TimerDue (timer_events events)) w.
Proof. now rewrite run_timers_only, filter_timers_repeat. Qed.

Lemma fire_requests_grow (w : world) :
  exists l, requests (fire w) = requests w ++ l.
Proof.
  unfold fire. destruct (take_earliest (timers w)) as [[[due [b k]] others] |].
  - rewrite prefetchNext_step. destruct (nth_error b k); cbn [requests].
    + eauto.
    + exists []. now rewrite app_nil_r.
  - exists []. now rewrite app_nil_r.
Qed.

Lemma run_requests_grow (n : nat) :
  forall w, exists l, requests (run (repeat TimerDue n) w) = requests w ++ l.
Proof.
  induction n as [| n IH]; intros w.
  - exists []. cbn. now rewrite app_nil_r.
  - cbn [repeat]. change (run (TimerDue :: repeat TimerDue n) w)
      with (run (repeat TimerDue n) (fire w)).
    destruct (IH (fire w)) as [l Hl]. destruct (fire_requests_grow w) as [l' Hl'].
    exists (l' ++ l). now rewrite Hl, Hl', app_assoc.
Qed.

(** At any moment of a pass the requests made so far are the beginning of
    the complete trace. *)
Lemma pass_prefix (bs : list (list Tile.tile)) (t0 : Z) (events : list event) :
  exists rest,
    requests (run events (start bs (page_at t0))) ++ rest = pass_trace t0 bs.
Proof.
  rewrite run_as_timers.
  set (c := timer_events events).
  destruct (@pass_complete bs t0 (c + total bs)%nat ltac:(lia)) as [_ Hr].
  rewrite repeat_app, run_app in Hr.
  destruct (run_requests_grow (total bs) (run (repeat TimerDue c) (start bs (page_at t0))))
    as [l Hl].
  exists l. now rewrite <- Hr, Hl.
Qed.

Lemma pass_finished (bs : list (list Tile.tile)) (t0 : Z) (events : list event) :
  (total bs <= timer_events events)%nat ->
  timers (run events (start bs (page_at t0))) = []
  /\ requests (run events (start bs (page_at t0))) = pass_trace t0 bs.
Proof. intros H. rewrite run_as_timers. now apply pass_complete. Qed.

Lemma round_targets (t0 : Z) (k : nat) (bs : list (list Tile.tile)) :
  map target (round t0 k bs) = round_tiles k bs.
Proof.
  unfold round, round_tiles. induction bs as [| b bs IH]; [reflexivity |].
  cbn [flat_map]. rewrite map_app, IH. now destruct (nth_error b k).
Qed.

Lemma pass_trace_targets (t0 : Z) (bs : list (list Tile.tile)) :
  map target (pass_trace t0 bs) = pass_order bs.
Proof.
  unfold pass_trace, pass_order. induction (seq 0 (depth bs)) as [| k ks IH];
    [reflexivity |].
  cbn [flat_map]. now rewrite map_app, round_targets, IH.
Qed.

Lemma in_pass_trace (t0 : Z) (bs : list (list Tile.tile)) (r : request) :
  In r (pass_trace t0 bs) <->
  exists b k tile,
    In b bs /\ nth_error b k = Some tile /\ r = request_for (t0 + 50 * Z.of_nat k) tile.
Proof.
  unfold pass_trace, round. rewrite in_flat_map. split.
  - intros (k & _ & Hr). apply in_flat_map in Hr. destruct Hr as (b & Hb & Hr).
    destruct (nth_error b k) as [tile |] eqn:Hnth; [| destruct Hr].
    destruct Hr as [<- | []]. now exists b, k, tile.
  - intros (b & k & tile & Hb & Hnth & ->). exists k. split.
    + apply in_seq. pose proof (length_le_depth _ _ Hb).
      assert (k < List.length b)%nat by (apply nth_error_Some; congruence). lia.
    + apply in_flat_map. exists b. split; [exact Hb |]. rewrite Hnth. now left.
Qed.

End EventFacts.

(** ** Properties of a prefetch pass *)

Module PrefetchFacts.

Import JS Loop Main Terms NumberFacts TileFacts LoopFacts GroupFacts PassFacts EventFacts.

(** C6: A failed tile fetch is ignored.  For every tile [(x, y, z)], once
    [prefetchTile] has set the image's source, the delivery of its failure
    runs a handler that leaves timers, requests and clock as they are: no
    request is added, so nothing is retried and nothing is thrown.  Hence,
    whatever fetches fail and whenever they do, a run of the page is the run
    of its timer events alone. *)
Theorem failed_fetch_ignored (x y z : Z) (i : nat) (w : world) (events : list event) :
  dispatch (prefetchTile x y z w) (ImageFailed i) = prefetchTile x y z w
  /\ img_onerror w = w
  /\ run events w = run (filter is_timer events) w.
Proof.
  split; [reflexivity |]. split; [reflexivity |]. apply run_timers_only.
Qed.

Lemma for_range_not_throws (lo hi : integer) (e : string) :
  for_range lo hi <> Throws e.
Proof.
  unfold for_range. destruct (le lo hi); [| discriminate].
  destruct lo, hi; discriminate.
Qed.

Lemma covering_tiles_not_throws (tb : TileBounds.tile_bounds) (zoom : Z) (e : string) :
  covering_tiles tb zoom <> Throws e.
Proof.
  unfold covering_tiles.
  destruct (for_range (Point.x (TileBounds.min tb)) (Point.x (TileBounds.max tb)))
    as [xs | e' |] eqn:Hx; cbn [obind];
    [| now apply for_range_not_throws in Hx | discriminate].
  clear Hx. generalize (@nil Tile.tile).
  induction xs as [| x xs IH]; intros tiles; cbn [ofold]; [discriminate |].
  destruct (for_range (Point.y (TileBounds.min tb)) (Point.y (TileBounds.max tb)))
    as [ys | e' |] eqn:Hy; cbn [obind];
    [apply IH | now apply for_range_not_throws in Hy | discriminate].
Qed.

Lemma enumerate_by_index {A : Type} (l : list A) :
  flat_map (fun k => match nth_error l k with Some a => [a] | None => [] end)
           (seq 0 (List.length l))
  = l.
Proof.
  induction l as [| a l IH]; [reflexivity |].
  cbn [List.length seq flat_map nth_error app]. f_equal.
  rewrite <- seq_shift, flat_map_concat_map, map_map, <- flat_map_concat_map.
  exact IH.
Qed.

Lemma pass_order_single (ts : list Tile.tile) : pass_order [ts] = ts.
Proof.
  unfold pass_order, round_tiles, depth. cbn [fold_right flat_map].
  rewrite Nat.max_0_r.
  etransitivity; [| apply enumerate_by_index].
  apply flat_map_ext. intros k. apply app_nil_r.
Qed.

Lemma page_idle (t0 : Z) (events : list event) : run events (page_at t0) = page_at t0.
Proof. rewrite run_as_timers. now apply run_idle. Qed.

(** C3: One [prefetchBoundsAtZoom] call issues at most 20 tile requests.
    For every bounds and zoom level, started on a page with nothing pending
    and followed by any events: if the call returns, the requests made at
    any later moment are at most [maxTiles = 20] and their tiles are the
    beginning of the first 20 enumerated tiles, all of these once twenty
    more timers have fired (none at all when the tile layer is missing); if
    the enumeration does not end, the call never returns and has made no
    request; it never throws. *)
Theorem prefetchBoundsAtZoom_cap (mainTileLayer : bool) (bounds : L.LatLngBounds)
  (zoom : Z) (t0 : Z) (events : list event) :
  match prefetchBoundsAtZoom mainTileLayer bounds zoom (page_at t0) with
  | Done w1 =>
      (List.length (requests (run events w1)) <= 20)%nat
      /\ if mainTileLayer
         then exists tiles rest,
                covering_tiles (getTileBounds bounds zoom) zoom = Done tiles
                /\ map target (requests (run events w1)) ++ rest = firstn 20 tiles
                /\ map target (requests (run (events ++ repeat TimerDue 20) w1))
                   = firstn 20 tiles
         else requests (run events w1) = []
  | Throws _ => False
  | Diverges =>
      mainTileLayer = true
      /\ covering_tiles (getTileBounds bounds zoom) zoom = Diverges
  end.
Proof.
  destruct mainTileLayer.
  - rewrite prefetchBoundsAtZoom_start. unfold tiles_to_fetch. cbn [fst snd].
    destruct (covering_tiles (getTileBounds bounds zoom) zoom) as [tiles | e |] eqn:Hc;
      cbn [obind]; [| now apply covering_tiles_not_throws in Hc | now split].
    change (prefetchNext {| tilesToFetch := firstn maxTiles tiles; index := 0 |} (page_at t0))
      with (start [firstn maxTiles tiles] (page_at t0)).
    destruct (pass_prefix [firstn maxTiles tiles] t0 events) as [rest Hrest].
    pose proof (f_equal (map target) Hrest) as Ht.
    rewrite map_app, pass_trace_targets, pass_order_single in Ht.
    assert (Hcap : (List.length (firstn maxTiles tiles) <= 20)%nat).
    { rewrite length_firstn. unfold maxTiles. lia. }
    split.
    + pose proof (f_equal (@List.length _) Ht) as Hlen.
      rewrite length_app, length_map in Hlen. lia.
    + exists tiles, (map target rest). split; [reflexivity |].
      split; [exact Ht |].
      destruct (@pass_finished [firstn maxTiles tiles] t0 (events ++ repeat TimerDue 20))
        as [_ Hfin].
      { rewrite timer_events_more. unfold total. cbn [fold_right]. lia. }
      now rewrite Hfin, pass_trace_targets, pass_order_single.
  - cbn [prefetchBoundsAtZoom negb]. rewrite page_idle. cbn.
    split; [lia | reflexivity].
Qed.

(** C4: Batches are started group by group and zoom-ascending, and then
    run side by side.  For every run of [prefetchTilesForCoffeePosts] on a
    page with nothing pending: the batches are those of [pass_calls] in
    order (each continent at zoom 4 then 6, each country at zoom 8 then 10,
    each city with several posts at zoom 12 then 14); the requests made at
    any moment are the beginning of [pass_order], which lists the first
    tile of every batch in that order, then the second tile of every batch,
    and so on; and once the timers have fired they are all of it.  A pass
    that does not return throws while grouping or never ends enumerating. *)
Theorem pass_order_round_robin (posts : list post) (t0 : Z) (events : list event) :
  match prefetchTilesForCoffeePosts true (Some posts) (page_at t0) with
  | Done w1 =>
      exists g bs,
        group_posts posts = Done g
        /\ omap tiles_to_fetch (pass_calls g) = Done bs
        /\ (exists rest, map target (requests (run events w1)) ++ rest = pass_order bs)
        /\ map target (requests (run (events ++ repeat TimerDue (total bs)) w1))
           = pass_order bs
        /\ timers (run (events ++ repeat TimerDue (total bs)) w1) = []
  | Throws e => batches_started posts = Throws e
  | Diverges => batches_started posts = Diverges
  end.
Proof.
  rewrite pass_started.
  destruct (batches_started posts) as [bs | e |] eqn:Hbs; cbn [obind];
    [| reflexivity | reflexivity].
  unfold batches_started in Hbs.
  destruct (group_posts posts) as [g | |]; try discriminate.
  cbn [obind] in Hbs. exists g, bs.
  split; [reflexivity |]. split; [exact Hbs |].
  destruct (pass_prefix bs t0 events) as [rest Hrest].
  destruct (@pass_finished bs t0 (events ++ repeat TimerDue (total bs))) as [Hidle Hfin].
  { rewrite timer_events_more. lia. }
  split; [| split].
  - exists (map target rest).
    now rewrite <- map_app, Hrest, pass_trace_targets.
  - now rewrite Hfin, pass_trace_targets.
  - exact Hidle.
Qed.

(** C5: Within a batch consecutive requests are 50 ms apart, and nothing
    else spaces the requests of a pass.  For every run of a pass started at
    time [t0] on a page with nothing pending: every request made is that of
    the [k]-th tile of one of the batches and is made at [t0 + 50 * k], and
    once the timers have fired the requests are exactly those of
    [pass_trace]: for [k = 0, 1, ...] the [k]-th tile of every batch, at
    [t0 + 50 * k].  So the first tiles of all batches are requested at the
    same instant [t0]. *)
Theorem pass_spacing (posts : list post) (t0 : Z) (events : list event) :
  match prefetchTilesForCoffeePosts true (Some posts) (page_at t0) with
  | Done w1 =>
      exists bs,
        batches_started posts = Done bs
        /\ Forall
             (fun r =>
                exists b k,
                  In b bs /\ nth_error b k = Some (target r)
                  /\ at_ms r = (t0 + 50 * Z.of_nat k)%Z)
             (requests (run events w1))
        /\ requests (run (events ++ repeat TimerDue (total bs)) w1) = pass_trace t0 bs
  | Throws e => batches_started posts = Throws e
  | Diverges => batches_started posts = Diverges
  end.
Proof.
  rewrite pass_started.
  destruct (batches_started posts) as [bs | e |] eqn:Hbs; cbn [obind];
    [| reflexivity | reflexivity].
  exists bs. split; [reflexivity |].
  destruct (pass_prefix bs t0 events) as [rest Hrest].
  split.
  - apply Forall_forall. intros r Hr.
    assert (Hin : In r (pass_trace t0 bs)).
    { rewrite <- Hrest. apply in_or_app. now left. }
    apply in_pass_trace in Hin. destruct Hin as (b & k & tile & Hb & Hnth & ->).
    now exists b, k.
  - apply pass_finished. rewrite timer_events_more. lia.
Qed.

Local Open Scope R_scope.

Lemma group_two_posts : group_posts two_posts = Done two_posts_groups.
Proof.
  unfold group_posts, two_posts. cbn [ofold]. unfold group_post.
  rewrite (@coordinates_some _ 10 (-100)) by (try reflexivity; lra).
  rewrite (@coordinates_some _ 10 (-90)) by (try reflexivity; lra).
  reflexivity.
Qed.

Lemma pad_two_posts :
  L.pad (L.extend (L.of_point (10, -100)) (10, -90)) 0.15 = two_posts_bounds.
Proof.
  unfold L.pad, L.extend, L.of_point, two_posts_bounds.
  cbn [L.getSouthWest L.getNorthEast L.lat L.lng fst snd].
  f_equal; f_equal;
    unfold Rmin, Rmax, Rabs;
    repeat match goal with
           | |- context [Rle_dec ?a ?b] => destruct (Rle_dec a b)
           | |- context [Rcase_abs ?a] => destruct (Rcase_abs a)
           end; try lra.
Qed.

Lemma zrange_single (a : Z) : zrange a a = [a].
Proof. rewrite zrange_cons by lia. now rewrite zrange_empty by lia. Qed.

Lemma tile_x_two_posts :
  Slippy.tile_x (-101.5) 4 = 3%Z /\ Slippy.tile_x (-88.5) 4 = 4%Z
  /\ Slippy.tile_x (-101.5) 6 = 13%Z /\ Slippy.tile_x (-88.5) 6 = 16%Z.
Proof. repeat split; apply Zfloor_eq; simpl; lra. Qed.

Lemma tiles_two_posts :
  omap tiles_to_fetch [ (two_posts_bounds, 4%Z); (two_posts_bounds, 6%Z) ]
  = Done two_posts_batches.
Proof.
  destruct tile_x_two_posts as (H43 & H44 & H613 & H616).
  assert (Hdef : Slippy.defined_at 10) by (apply defined_between_poles; lra).
  assert (Htb : forall zoom,
             getTileBounds two_posts_bounds zoom
             = {| TileBounds.min :=
                    {| Point.x := Int (Z.min (Slippy.tile_x (-101.5) zoom)
                                             (Slippy.tile_x (-88.5) zoom));
                       Point.y := Int (Slippy.tile_y 10 zoom) |};
                  TileBounds.max :=
                    {| Point.x := Int (Z.max (Slippy.tile_x (-101.5) zoom)
                                             (Slippy.tile_x (-88.5) zoom));
                       Point.y := Int (Slippy.tile_y 10 zoom) |} |}).
  { intros zoom. unfold getTileBounds, two_posts_bounds. cbv zeta.
    cbn [L.getSouthWest L.getNorthEast L.lat L.lng Point.x Point.y].
    rewrite !x_index_slippy, !y_index_slippy by exact Hdef.
    cbn [Math_min Math_max]. now rewrite Z.min_id, Z.max_id. }
  cbn [omap]. unfold tiles_to_fetch. cbn [fst snd].
  rewrite !Htb, H43, H44, H613, H616, !covering_tiles_rectangle.
  unfold rectangle. rewrite !zrange_single.
  reflexivity.
Qed.

Lemma batches_two_posts : batches_started two_posts = Done two_posts_batches.
Proof.
  unfold batches_started. rewrite group_two_posts. cbn [obind].
  unfold pass_calls. cbn [two_posts_groups regions countries cities].
  change (Obj.entries (@nil (string * list (R * R)))) with (@nil (string * list (R * R))).
  change (Obj.entries [ ("asia"%string, [ (10, -100); (10, -90) ]) ])
    with [ ("asia"%string, [ (10, -100); (10, -90) ]) ].
  cbn [flat_map app]. unfold calls_for. cbn [snd List.length Nat.ltb Nat.leb].
  cbn [L.latLngBounds fold_left]. rewrite pad_two_posts.
  apply tiles_two_posts.
Qed.

(** One pass over [two_posts], request by request: tile, and time. *)
Lemma two_posts_trace :
  exists w1,
    prefetchTilesForCoffeePosts true (Some two_posts) (page_at 2000) = Done w1
    /\ map (fun r => (Tile.x (target r), Tile.z (target r), at_ms r))
           (requests (run (repeat TimerDue 6) w1))
       = [ (3, 4, 2000); (13, 6, 2000); (4, 4, 2050); (14, 6, 2050);
           (15, 6, 2100); (16, 6, 2150) ]%Z.
Proof.
  rewrite pass_started, batches_two_posts. cbn [obind].
  eexists. split; [reflexivity |].
  destruct (@pass_complete two_posts_batches 2000 6) as [_ Hr]; [cbn; lia |].
  rewrite Hr. unfold two_posts_batches.
  generalize (Slippy.tile_y 10 4) (Slippy.tile_y 10 6). intros y4 y6.
  reflexivity.
Qed.

(** C4 (counterexample): For two posts of one continent ten degrees of
    longitude apart, the second request of the pass is for zoom 6 and the
    third for zoom 4: the requests of the only group at its lower zoom level
    are not all made before those at its higher zoom level. *)
Lemma pass_interleaves_zoom_levels :
  exists w1,
    prefetchTilesForCoffeePosts true (Some two_posts) (page_at 2000) = Done w1
    /\ map (fun r => Tile.z (target r)) (requests (run (repeat TimerDue 6) w1))
       = [4; 6; 4; 6; 6; 6]%Z
    /\ ~ zoom_ascending (requests (run (repeat TimerDue 6) w1)).
Proof.
  rewrite pass_started, batches_two_posts. cbn [obind].
  eexists. split; [reflexivity |].
  destruct (@pass_complete two_posts_batches 2000 6) as [_ Hr]; [cbn; lia |].
  rewrite Hr. unfold two_posts_batches.
  generalize (Slippy.tile_y 10 4) (Slippy.tile_y 10 6). intros y4 y6.
  split; [reflexivity |].
  intros Hasc.
  specialize (Hasc 2%nat 1%nat _ _ eq_refl eq_refl). cbn in Hasc. lia.
Qed.

End PrefetchFacts.

(** ** Which posts are grouped, and which groups are prefetched *)

Module ScopeFacts.

Import Obj Main Terms ObjFacts GroupFacts PassFacts.

Lemma group_post_skips (g : groups) (p : post) :
  coordinates p = None -> group_post g p = Done g.
Proof. unfold group_post. now intros ->. Qed.

(** Without a located post there is no marker, and no prefetch is scheduled. *)
Lemma no_marker_no_prefetch (posts : list post) :
  (forall p, In p posts -> coordinates p = None) ->
  markers posts = [] /\ schedules_prefetch posts = None.
Proof.
  intros Hall.
  assert (Hm : markers posts = []).
  { unfold markers. induction posts as [| p posts IH]; [reflexivity |].
    cbn [flat_map]. rewrite (Hall p (or_introl eq_refl)). cbn [app].
    apply IH. intros q Hq. apply Hall. now right. }
  split; [exact Hm |]. unfold schedules_prefetch. now rewrite Hm.
Qed.

(** C9: A post whose latitude or longitude is 0, [null] or [undefined] is
    left out of the markers and of the grouping: the markers, the groups and
    the whole prefetch pass are those of the list without the post. *)
Theorem falsy_coordinates_excluded (p : post) (before after : list post) :
  falsy (latitude p) \/ falsy (longitude p) ->
  markers (before ++ p :: after) = markers (before ++ after)
  /\ group_posts (before ++ p :: after) = group_posts (before ++ after)
  /\ forall mainTileLayer w,
       prefetchTilesForCoffeePosts mainTileLayer (Some (before ++ p :: after)) w
       = prefetchTilesForCoffeePosts mainTileLayer (Some (before ++ after)) w.
Proof.
  intros Hfalsy. pose proof (coordinates_none p Hfalsy) as Hnone.
  assert (Hgroups : group_posts (before ++ p :: after) = group_posts (before ++ after)).
  { unfold group_posts. rewrite !ofold_app.
    destruct (ofold group_post before no_groups) as [g | |]; cbn [obind ofold];
      [| reflexivity | reflexivity].
    now rewrite (group_post_skips g p Hnone). }
  split; [| split; [exact Hgroups |]].
  - unfold markers. rewrite !flat_map_app. cbn [flat_map]. now rewrite Hnone.
  - intros mainTileLayer w. unfold prefetchTilesForCoffeePosts. now rewrite Hgroups.
Qed.

(** A post on the equator gets no marker and joins no group. *)
Lemma falsy_coordinates_excluded_witness :
  markers ([] ++ equator_post :: []) = markers ([] ++ [])
  /\ group_posts ([] ++ equator_post :: []) = group_posts ([] ++ []).
Proof.
  destruct (@falsy_coordinates_excluded equator_post [] []) as (Hm & Hg & _).
  - left. left. reflexivity.
  - split; [exact Hm | exact Hg].
Defined.




End ScopeFacts.

(** ** The post store *)

Module PostStoreFacts.

Import PostStore.

Lemma find_snoc {A : Type} (f : A -> bool) (l : list A) (a : A) :
  find f (l ++ [a])
  = match find f l with
    | Some x => Some x
    | None => if f a then Some a else None
    end.
Proof.
  induction l as [| b l IH]; cbn; [reflexivity |].
  now destruct (f b).
Qed.

Lemma insert_present (s : store) (h : string) (c : fields) (r : row) :
  find_hash s h = Some r -> insert s h c = (s, id r, false).
Proof. unfold insert. now intros ->. Qed.

(** After an insert the hash is in the store, and so is every hash that was. *)
Lemma insert_keeps (s : store) (h : string) (c : fields) (h' : string) :
  find_hash s h' <> None -> find_hash (fst (fst (insert s h c))) h' <> None.
Proof.
  unfold insert. destruct (find_hash s h) as [r |] eqn:Hh; cbn [fst]; [trivial |].
  unfold find_hash. cbn [rows]. rewrite find_snoc.
  now destruct (find (fun r => String.eqb (hash r) h') (rows s)).
Qed.

Lemma insert_adds (s : store) (h : string) (c : fields) :
  find_hash (fst (fst (insert s h c))) h <> None.
Proof.
  unfold insert. destruct (find_hash s h) as [r |] eqn:Hh; cbn [fst].
  - congruence.
  - unfold find_hash in *. cbn [rows]. rewrite find_snoc, Hh. cbn [hash].
    now rewrite String.eqb_refl.
Qed.

(** Hashes stay unique. *)
Lemma insert_unique (s : store) (h : string) (c : fields) :
  NoDup (map hash (rows s)) -> NoDup (map hash (rows (fst (fst (insert s h c))))).
Proof.
  unfold insert. destruct (find_hash s h) as [r |] eqn:Hh; cbn [fst]; [trivial |].
  intros Hnd. cbn [rows]. rewrite map_app. cbn [map hash].
  apply ObjFacts.NoDup_snoc; [exact Hnd |].
  intros Hin. apply in_map_iff in Hin. destruct Hin as (r & Hr & Hin).
  unfold find_hash in Hh.
  apply (find_none _ _ Hh) in Hin. rewrite Hr, String.eqb_refl in Hin. discriminate.
Qed.

Section Importer.

Variable fingerprint : string -> string -> string -> string.

Lemma import_one_store (acc : store * counts) (r : source_record) :
  fst (import_one fingerprint acc r)
  = fst (fst (insert (fst acc) (dedup_hash fingerprint (normalize r)) (normalize r))).
Proof.
  unfold import_one.
  destruct (insert (fst acc) (dedup_hash fingerprint (normalize r)) (normalize r)) as [[s i] fresh].
  now destruct fresh.
Qed.

(** Importing leaves every source record's hash in the store. *)
Lemma import_covers (batch : list source_record) :
  forall acc,
    let s' := fst (fold_left (import_one fingerprint) batch acc) in
    (forall h, find_hash (fst acc) h <> None -> find_hash s' h <> None)
    /\ (forall r, In r batch -> find_hash s' (dedup_hash fingerprint (normalize r)) <> None).
Proof.
  induction batch as [| r0 batch IH]; intros acc; cbn [fold_left].
  - split; [trivial | intros r []].
  - destruct (IH (import_one fingerprint acc r0)) as [Hkeep Hcov].
    rewrite import_one_store in Hkeep.
    split.
    + intros h Hh. apply Hkeep. now apply insert_keeps.
    + intros r [<- | Hin]; [| now apply Hcov].
      apply Hkeep. apply insert_adds.
Qed.

(** Importing records whose hashes are all present changes nothing and
    counts every record as skipped. *)
Lemma import_present (batch : list source_record) :
  forall s n m,
    (forall r, In r batch -> find_hash s (dedup_hash fingerprint (normalize r)) <> None) ->
    fold_left (import_one fingerprint) batch (s, {| inserted := n; skipped := m |})
    = (s, {| inserted := n; skipped := m + List.length batch |}).
Proof.
  induction batch as [| r0 batch IH]; intros s n m Hall; cbn [fold_left List.length].
  - now rewrite Nat.add_0_r.
  - assert (Hstep : import_one fingerprint (s, {| inserted := n; skipped := m |}) r0
                    = (s, {| inserted := n; skipped := S m |})).
    { unfold import_one. cbn [fst snd].
      destruct (find_hash s (dedup_hash fingerprint (normalize r0))) as [r |] eqn:Hfind.
      - now rewrite (@insert_present _ _ (normalize r0) _ Hfind).
      - exfalso. now apply (Hall r0 (or_introl eq_refl)). }
    rewrite Hstep, IH.
    + now rewrite Nat.add_succ_comm.
    + intros r Hr. apply Hall. now right.
Qed.

(** C2: Importing is idempotent.  An insert whose hash is present returns
    the existing id and leaves the store as it is (otherwise it appends one
    row under the next id); and for every store and every batch, importing
    the batch a second time inserts nothing, skips every record and leaves
    the store unchanged. *)
Theorem import_idempotent (s : store) (batch : list source_record)
  (h : string) (c : fields) :
  match find_hash s h with
  | Some r => insert s h c = (s, id r, false)
  | None =>
      insert s h c
      = ({| rows := rows s ++ [ {| id := next_id s; hash := h; content := c |} ];
            next_id := S (next_id s) |}, next_id s, true)
  end
  /\ let s1 := fst (import_batch fingerprint s batch) in
     import_batch fingerprint s1 batch
     = (s1, {| inserted := 0; skipped := List.length batch |}).
Proof.
  split.
  - unfold insert. now destruct (find_hash s h).
  - cbv zeta. unfold import_batch at 1.
    rewrite import_present; [reflexivity |].
    intros r Hr.
    now apply (import_covers batch (s, {| inserted := 0; skipped := 0 |})).
Qed.

End Importer.

End PostStoreFacts.

(** ** The tile rectangle of a group covers its posts *)

Module CoverFacts.

Import JS Loop Main Terms Geo NumberFacts TileFacts LoopFacts.
Local Open Scope R_scope.





Ltac minmax :=
  unfold Rmin, Rmax;
  repeat match goal with
         | |- context [Rle_dec ?a ?b] => destruct (Rle_dec a b)
         end;
  cbn [L.lat L.lng L.getSouthWest L.getNorthEast fst snd] in *; try lra.

Lemma of_point_inside (p : R * R) : ordered (L.of_point p) /\ inside (L.of_point p) p.
Proof. unfold ordered, inside, L.of_point. cbn. lra. Qed.

Lemma extend_inside (b : L.LatLngBounds) (p : R * R) :
  ordered b ->
  ordered (L.extend b p) /\ inside (L.extend b p) p
  /\ forall c, inside b c -> inside (L.extend b p) c.
Proof.
  unfold ordered, inside, L.extend. intros [Hlat Hlng].
  cbn [L.lat L.lng L.getSouthWest L.getNorthEast].
  split; [| split].
  - split; minmax.
  - split; split; minmax.
  - intros c [[? ?] [? ?]]. split; split; minmax.
Qed.

Lemma fold_extend_inside (coords : list (R * R)) :
  forall b,
    ordered b ->
    ordered (fold_left L.extend coords b)
    /\ (forall c, inside b c -> inside (fold_left L.extend coords b) c)
    /\ (forall c, In c coords -> inside (fold_left L.extend coords b) c).
Proof.
  induction coords as [| p coords IH]; intros b Hb; cbn [fold_left].
  - split; [exact Hb | split; [auto | intros c []]].
  - destruct (@extend_inside b p Hb) as (Ho & Hp & Hmono).
    destruct (IH _ Ho) as (Ho' & Hin & Hall).
    split; [exact Ho' | split].
    + intros c Hc. apply Hin, Hmono, Hc.
    + intros c [<- | Hc]; [apply Hin, Hp | apply Hall, Hc].
Qed.

Lemma latLngBounds_inside (coords : list (R * R)) (b : L.LatLngBounds) :
  L.latLngBounds coords = Some b ->
  ordered b /\ forall c, In c coords -> inside b c.
Proof.
  unfold L.latLngBounds. destruct coords as [| p coords]; [discriminate |].
  intros [= <-].
  destruct (of_point_inside p) as [Ho Hp].
  destruct (@fold_extend_inside coords _ Ho) as (Ho' & Hmono & Hall).
  split; [exact Ho' |]. intros c [<- | Hc]; auto.
Qed.

Lemma pad_ordered (b : L.LatLngBounds) (ratio : R) :
  ordered b -> 0 <= ratio ->
  L.pad b ratio
  = {| L.getSouthWest :=
         {| L.lat := L.lat (L.getSouthWest b)
                     - (L.lat (L.getNorthEast b) - L.lat (L.getSouthWest b)) * ratio;
            L.lng := L.lng (L.getSouthWest b)
                     - (L.lng (L.getNorthEast b) - L.lng (L.getSouthWest b)) * ratio |};
       L.getNorthEast :=
         {| L.lat := L.lat (L.getNorthEast b)
                     + (L.lat (L.getNorthEast b) - L.lat (L.getSouthWest b)) * ratio;
            L.lng := L.lng (L.getNorthEast b)
                     + (L.lng (L.getNorthEast b) - L.lng (L.getSouthWest b)) * ratio |} |}.
Proof.
  intros [Hlat Hlng] Hr. unfold L.pad, L.extend, L.of_point. cbv zeta.
  cbn [L.lat L.lng L.getSouthWest L.getNorthEast fst snd].
  rewrite (Rabs_left1 (L.lat (L.getSouthWest b) - L.lat (L.getNorthEast b))) by lra.
  rewrite (Rabs_left1 (L.lng (L.getSouthWest b) - L.lng (L.getNorthEast b))) by lra.
  replace (- (L.lat (L.getSouthWest b) - L.lat (L.getNorthEast b)))
    with (L.lat (L.getNorthEast b) - L.lat (L.getSouthWest b)) by lra.
  replace (- (L.lng (L.getSouthWest b) - L.lng (L.getNorthEast b)))
    with (L.lng (L.getNorthEast b) - L.lng (L.getSouthWest b)) by lra.
  assert (Hh : 0 <= (L.lat (L.getNorthEast b) - L.lat (L.getSouthWest b)) * ratio)
    by (apply Rmult_le_pos; lra).
  assert (Hw : 0 <= (L.lng (L.getNorthEast b) - L.lng (L.getSouthWest b)) * ratio)
    by (apply Rmult_le_pos; lra).
  f_equal; f_equal; minmax.
Qed.












End CoverFacts.

(** ** The budget of a pass *)

Module BudgetFacts.

Import Obj Main Terms PassFacts EventFacts.









End BudgetFacts.

(** ** Which posts reach which groups *)

Module MemberFacts.

Import Obj Main Terms Geo ObjFacts GroupFacts.

Lemma in_members (name_of : post -> option string) (k : string) (posts : list post)
  (p : post) (c : R * R) :
  In p posts -> coordinates p = Some c -> name_of p = Some k ->
  In c (members name_of k posts).
Proof.
  intros Hp Hc Hk. unfold members. apply in_flat_map. exists p.
  split; [exact Hp |]. rewrite Hc, Hk, String.eqb_refl. now left.
Qed.

Lemma group_of_member (name_of : post -> option string) (k : string) (posts : list post)
  (c : R * R) :
  In c (members name_of k posts) ->
  exists cs, group_of name_of k posts = Some cs /\ In c cs.
Proof.
  unfold group_of. destruct (members name_of k posts) as [| c0 cs] eqn:E; [intros [] |].
  intros H. now exists (c0 :: cs).
Qed.

(** X6: when grouping returns, the coordinates of every located post are
    in the group of each of its names that is not empty and not the
    placeholder: its continent (lower-cased, spaces replaced), its country
    and its city. *)
Theorem located_post_in_its_groups (posts : list post) (g : groups) (p : post) (c : R * R) :
  group_posts posts = Done g ->
  In p posts ->
  coordinates p = Some c ->
  (forall k, continent_key p = Some k -> nameable "unknown" k = true ->
     exists cs, own_get (regions g) k = Some cs /\ In c cs)
  /\ (forall k, country p = Some k -> nameable "Unknown" k = true ->
        exists cs, own_get (countries g) k = Some cs /\ In c cs)
  /\ (forall k, city p = Some k -> nameable "Unknown" k = true ->
        exists cs, own_get (cities g) k = Some cs /\ In c cs).
Proof.
  intros Hg Hp Hc.
  repeat split; intros k Hk Hname;
    destruct (group_posts_members _ Hg k) as (Hr & Hn & Hi);
    rewrite Hname in *;
    [rewrite Hr | rewrite Hn | rewrite Hi];
    apply group_of_member; now apply (@in_members _ k posts p c).
Qed.

Lemma group_lisbon_post :
  group_posts [lisbon_post]
  = Done {| regions := [ ("europe"%string, [ (38.7, -9.1)%R ]) ];
            countries := [ ("Portugal"%string, [ (38.7, -9.1)%R ]) ];
            cities := [ ("Lisbon"%string, [ (38.7, -9.1)%R ]) ] |}.
Proof.
  unfold group_posts, lisbon_post. cbn [ofold]. unfold group_post.
  rewrite (@coordinates_some _ 38.7 (-9.1)) by (try reflexivity; lra).
  reflexivity.
Qed.

Lemma located_post_in_its_groups_witness :
  exists cs,
    own_get [ ("Lisbon"%string, [ (38.7, -9.1)%R ]) ] "Lisbon" = Some cs
    /\ In (38.7, -9.1)%R cs.
Proof.
  refine (proj2 (proj2 (@located_post_in_its_groups [lisbon_post] _ lisbon_post
                          (38.7, -9.1)%R group_lisbon_post _ _))
                "Lisbon"%string _ _).
  - now left.
  - apply coordinates_some; try reflexivity; lra.
  - reflexivity.
  - reflexivity.
Defined.


Lemma group_unlocated (posts : list post) :
  (forall p, In p posts -> coordinates p = None) ->
  forall g, ofold group_post posts g = Done g.
Proof.
  induction posts as [| p posts IH]; intros Hall g; [reflexivity |].
  cbn [ofold]. unfold group_post at 1. rewrite (Hall p (or_introl eq_refl)).
  cbn [obind]. apply IH. intros q Hq. apply Hall. now right.
Qed.

(** X8: when no post has both coordinates, the page adds no marker, does
    not schedule the prefetch, and a prefetch pass changes nothing: no
    request, no timer. *)
Theorem unlocated_posts_prefetch_nothing (posts : list post) (w : world) :
  (forall p, In p posts -> coordinates p = None) ->
  prefetchTilesForCoffeePosts true (Some posts) w = Done w
  /\ markers posts = []
  /\ schedules_prefetch posts = None.
Proof.
  intros Hall. split.
  - unfold prefetchTilesForCoffeePosts, group_posts.
    rewrite (group_unlocated posts Hall). reflexivity.
  - assert (Hm : markers posts = []).
    { unfold markers. induction posts as [| p posts IH]; [reflexivity |].
      cbn [flat_map]. rewrite (Hall p (or_introl eq_refl)). cbn [app].
      apply IH. intros q Hq. apply Hall. now right. }
    split; [exact Hm |]. unfold schedules_prefetch. now rewrite Hm.
Qed.

Lemma unlocated_posts_prefetch_nothing_witness :
  prefetchTilesForCoffeePosts true (Some [equator_post]) (page_at 2000)
  = Done (page_at 2000).
Proof.
  refine (proj1 (@unlocated_posts_prefetch_nothing [equator_post] (page_at 2000) _)).
  intros p [<- | []]. apply coordinates_none. left. left. reflexivity.
Defined.

Lemma inherited_nameable (placeholder k : string) :
  placeholder = "unknown"%string \/ placeholder = "Unknown"%string ->
  inherited k = true -> nameable placeholder k = true.
Proof.
  intros Hph H. unfold inherited in H. apply existsb_exists in H.
  destruct H as (n & Hin & Heq). apply String.eqb_eq in Heq. subst n.
  unfold prototype_names in Hin. cbn [In] in Hin.
  destruct Hph as [-> | ->];
    repeat (destruct Hin as [<- | Hin]; [reflexivity |]); contradiction.
Qed.

Lemma push_to_no_inherited o k (v : R * R) o' :
  push_to o k v = Done o' -> no_inherited o -> no_inherited o'.
Proof.
  intros H Ho k' Hk'. rewrite (push_to_get _ _ _ H).
  destruct (String.eqb k k') eqn:E; [| now apply Ho].
  apply String.eqb_eq in E. subst k'. exfalso.
  unfold push_to in H. rewrite (Ho k Hk'), Hk' in H. discriminate.
Qed.

Lemma group_under_no_inherited o name placeholder c o' :
  group_under o name placeholder c = Done o' -> no_inherited o -> no_inherited o'.
Proof.
  unfold group_under. destruct name as [k |]; [| now intros [= <-]].
  destruct (Str.nonempty k && negb (String.eqb k placeholder)); [| now intros [= <-]].
  apply push_to_no_inherited.
Qed.

Lemma group_under_inherited_throws o k placeholder c :
  placeholder = "unknown"%string \/ placeholder = "Unknown"%string ->
  inherited k = true -> no_inherited o ->
  group_under o (Some k) placeholder c = Throws "TypeError: push is not a function".
Proof.
  intros Hph Hk Ho. unfold group_under.
  pose proof (@inherited_nameable _ _ Hph Hk) as Hn. unfold nameable in Hn. rewrite Hn.
  unfold push_to. now rewrite (Ho k Hk), Hk.
Qed.

Lemma group_post_clean g p g' :
  group_post g p = Done g' -> clean g -> clean g'.
Proof.
  unfold group_post. destruct (coordinates p) as [c |]; [| now intros [= <-]].
  intros H (Hr & Hn & Hi).
  destruct (group_under (regions g) _ "unknown" c) as [r | |] eqn:Er;
    cbn [obind] in H; try discriminate.
  destruct (group_under (countries g) (country p) "Unknown" c) as [cs | |] eqn:En;
    cbn [obind] in H; try discriminate.
  destruct (group_under (cities g) (city p) "Unknown" c) as [ci | |] eqn:Ei;
    cbn [obind] in H; try discriminate.
  injection H as <-. unfold clean. cbn [regions countries cities].
  split; [| split]; eapply group_under_no_inherited; eassumption.
Qed.

Lemma group_post_inherited_throws g p c k :
  clean g -> coordinates p = Some c ->
  continent_key p = Some k \/ country p = Some k \/ city p = Some k ->
  inherited k = true ->
  exists e, group_post g p = Throws e.
Proof.
  intros (Hr & Hn & Hi) Hc Hname Hk. unfold group_post. rewrite Hc.
  fold (continent_key p).
  destruct (group_under (regions g) (continent_key p) "unknown" c) as [r | e |] eqn:Er;
    cbn [obind]; [| eauto | now apply group_under_not_diverges in Er].
  destruct (group_under (countries g) (country p) "Unknown" c) as [cs | e |] eqn:En;
    cbn [obind]; [| eauto | now apply group_under_not_diverges in En].
  destruct (group_under (cities g) (city p) "Unknown" c) as [ci | e |] eqn:Ei;
    cbn [obind]; [| eauto | now apply group_under_not_diverges in Ei].
  exfalso. destruct Hname as [H | [H | H]]; rewrite H in *.
  - rewrite group_under_inherited_throws in Er by auto. discriminate.
  - rewrite group_under_inherited_throws in En by auto. discriminate.
  - rewrite group_under_inherited_throws in Ei by auto. discriminate.
Qed.

Lemma grouping_inherited_throws (posts : list post) (p : post) (c : R * R) (k : string) :
  In p posts -> coordinates p = Some c ->
  continent_key p = Some k \/ country p = Some k \/ city p = Some k ->
  inherited k = true ->
  forall g, clean g -> exists e, ofold group_post posts g = Throws e.
Proof.
  intros Hp Hc Hname Hk.
  induction posts as [| q posts IH]; [destruct Hp |].
  intros g Hg. cbn [ofold].
  destruct (group_post g q) as [g' | e |] eqn:Hstep; cbn [obind].
  - destruct Hp as [-> | Hp].
    + destruct (@group_post_inherited_throws g p c k Hg Hc Hname Hk) as (e & He).
      congruence.
    + apply IH; [exact Hp |]. eapply group_post_clean; eassumption.
  - eauto.
  - now apply group_post_not_diverges in Hstep.
Qed.

Lemma no_groups_clean : clean no_groups.
Proof. repeat split; intros k _; reflexivity. Qed.

(** X7: a located post one of whose names is a property every object
    inherits ([constructor], [toString], ...) makes the whole pass throw
    while grouping, wherever the post stands in the list: no tile is
    requested for any group. *)
Theorem inherited_name_stops_pass (posts : list post) (p : post) (c : R * R)
  (k : string) (w : world) :
  In p posts ->
  coordinates p = Some c ->
  continent_key p = Some k \/ country p = Some k \/ city p = Some k ->
  inherited k = true ->
  exists e, prefetchTilesForCoffeePosts true (Some posts) w = Throws e.
Proof.
  intros Hp Hc Hname Hk.
  destruct (@grouping_inherited_throws posts p c k Hp Hc Hname Hk no_groups
              no_groups_clean) as (e & He).
  exists e. unfold prefetchTilesForCoffeePosts, group_posts. now rewrite He.
Qed.

Lemma inherited_name_stops_pass_witness :
  exists e,
    prefetchTilesForCoffeePosts true (Some [equator_post; constructor_post]) (page_at 2000)
    = Throws e.
Proof.
  apply (@inherited_name_stops_pass [equator_post; constructor_post] constructor_post
           (10, 20)%R "constructor" (page_at 2000)).
  - right. now left.
  - apply coordinates_some; try reflexivity; lra.
  - right. right. reflexivity.
  - reflexivity.
Defined.

End MemberFacts.

(** ** Groups at the edges: past a pole, and of one member *)

Module EdgeFacts.

Import JS Loop Main Terms Geo NumberFacts TileFacts LoopFacts PassFacts CoverFacts.
Local Open Scope R_scope.














End EdgeFacts.

(** ** The service worker *)

Module SWFacts.

Import SW.

Local Open Scope string_scope.

(** *** The pattern *)

Lemma image_here_suffix (s : string) :
  image_here s = true <->
  exists ext, s = "." ++ ext /\ In (Str.toLowerCase ext) extensions.
Proof.
  split.
  - destruct s as [| c rest]; [discriminate |]. cbn [image_here].
    intros H. apply andb_true_iff in H. destruct H as [Hc He].
    apply Ascii.eqb_eq in Hc. subst c.
    apply existsb_exists in He. destruct He as (e & Hin & Heq).
    apply String.eqb_eq in Heq. exists rest. split; [reflexivity | now rewrite Heq].
  - intros (ext & -> & Hin). cbn [append image_here]. cbn [Ascii.eqb Bool.eqb andb].
    apply existsb_exists. exists (Str.toLowerCase ext).
    split; [exact Hin | apply String.eqb_refl].
Qed.

Lemma matches_cons (c : ascii) (rest : string) :
  matches (String c rest) = image_here (String c rest) || matches rest.
Proof. reflexivity. Qed.

(** X12: the pattern of the worker matches a path exactly when the path
    ends in a dot and one of the six extensions, in any mix of upper and
    lower case; nothing else of the path matters. *)
Theorem matches_image_suffix (p : string) :
  matches p = true <->
  exists stem ext, p = stem ++ "." ++ ext /\ In (Str.toLowerCase ext) extensions.
Proof.
  split.
  - induction p as [| c rest IH].
    + cbn. discriminate.
    + cbn [matches]. intros H. apply orb_true_iff in H. destruct H as [H | H].
      * apply image_here_suffix in H. destruct H as (ext & Hp & Hin).
        exists "", ext. now split.
      * destruct (IH H) as (stem & ext & -> & Hin).
        exists (String c stem), ext. now split.
  - intros (stem & ext & -> & Hin).
    induction stem as [| c stem IH].
    + assert (H : image_here ("." ++ ext) = true)
        by (apply image_here_suffix; now exists ext).
      cbn [append] in *. now rewrite matches_cons, H.
    + change (String c stem ++ "." ++ ext) with (String c (stem ++ "." ++ ext)).
      rewrite matches_cons, IH. apply orb_true_r.
Qed.

Section Worker.

Context {cache : Type} `{Cache cache}.
Variable here : string.


(** *** Caches *)

Lemma lookup_app (name : string) (st1 st2 : list (string * cache)) :
  lookup name (st1 ++ st2)
  = match lookup name st1 with
    | Some c => Some c
    | None => lookup name st2
    end.
Proof.
  induction st1 as [| [n c] st1 IH]; [reflexivity |]. cbn [app lookup].
  now destruct (String.eqb n name).
Qed.

Lemma assets_open (st : list (string * cache)) :
  assets (open CACHE_NAME st) = assets st.
Proof.
  unfold open, assets. destruct (lookup CACHE_NAME st) as [c |] eqn:E.
  - now rewrite E.
  - rewrite lookup_app, E. cbn [lookup]. now rewrite String.eqb_refl.
Qed.

Lemma lookup_filter_assets (st : list (string * cache)) :
  lookup CACHE_NAME (filter (fun e => String.eqb (fst e) CACHE_NAME) st)
  = lookup CACHE_NAME st.
Proof.
  induction st as [| [n c] st IH]; [reflexivity |]. cbn [filter fst lookup].
  destruct (String.eqb n CACHE_NAME) eqn:E; [| exact IH].
  cbn [lookup]. now rewrite E.
Qed.

Lemma only_assets_open (st : list (string * cache)) :
  only_assets st -> only_assets (open CACHE_NAME st).
Proof.
  intros Hst. unfold open. destruct (lookup CACHE_NAME st); [exact Hst |].
  apply Forall_app. split; [exact Hst | now repeat constructor].
Qed.

Lemma only_assets_update (f : cache -> cache) (st : list (string * cache)) :
  only_assets st -> only_assets (update CACHE_NAME f st).
Proof.
  induction 1 as [| [n c] st Hn Hst IH]; [constructor |]. cbn [update].
  destruct (String.eqb n CACHE_NAME); constructor; assumption.
Qed.

Lemma activate_only_assets (s : state cache) : only_assets (storage (on_activate s)).
Proof.
  cbn [on_activate storage]. apply Forall_forall. intros e He.
  apply filter_In in He. destruct He as [_ He]. now apply String.eqb_eq in He.
Qed.

Lemma step_only_assets (e : worker_event) (s : state cache) :
  only_assets (storage s) -> only_assets (storage (handle here s e)).
Proof.
  intros Hs. destruct e as [r | i result |]; cbn [SW.handle].
  - unfold SW.on_fetch. destruct (in_scope here r); [| exact Hs].
    destruct (cache_match _ r); cbn [storage]; now apply only_assets_open.
  - unfold on_settle. destruct (nth_error (fetching s) i); [| exact Hs].
    destruct result as [resp |]; [| exact Hs].
    destruct (ok resp); cbn [storage]; [now apply only_assets_update | exact Hs].
  - apply activate_only_assets.
Qed.

Lemma run_only_assets (es : list worker_event) :
  forall s : state cache, only_assets (storage s) -> only_assets (storage (handle_all here es s)).
Proof.
  induction es as [| e es IH]; intros s Hs; [exact Hs |].
  cbn [SW.handle_all fold_left]. apply IH. now apply step_only_assets.
Qed.

(** X13: after the worker is activated no cache other than its own exists, then
    or later, and its own cache is what it was. *)
Theorem activate_leaves_own_cache (s : state cache) (events : list worker_event) :
  (forall name c,
     In (name, c) (storage (handle_all here (Activate :: events) s)) -> name = CACHE_NAME)
  /\ assets (storage (on_activate s)) = assets (storage s).
Proof.
  split.
  - intros name c Hin. cbn [SW.handle_all fold_left SW.handle] in Hin.
    pose proof (@run_only_assets events _ (activate_only_assets s)) as Hinv.
    exact (proj1 (Forall_forall _ _) Hinv (name, c) Hin).
  - unfold assets. cbn [on_activate storage]. now rewrite lookup_filter_assets.
Qed.

(** *** Requests *)

Lemma remove_nth_perm {A : Type} (l : list A) :
  forall i a, nth_error l i = Some a -> Permutation l (a :: remove_nth i l).
Proof.
  induction l as [| b l IH]; intros [| i] a Hnth; try discriminate.
  - injection Hnth as ->. reflexivity.
  - cbn [nth_error] in Hnth. cbn [remove_nth].
    rewrite (IH i a Hnth) at 1. apply perm_swap.
Qed.

Lemma step_in_charge (e : worker_event) (s : state cache) :
  Permutation (in_charge (handle here s e)) (in_charge s ++ asked here [ e ]).
Proof.
  unfold in_charge. destruct e as [r | i result |]; cbn [SW.handle asked flat_map].
  - unfold SW.on_fetch. destruct (in_scope here r); [| now rewrite !app_nil_r].
    destruct (cache_match _ r); cbn [answered fetching app].
    + rewrite map_app. cbn [map fst]. rewrite <- !app_assoc.
      apply Permutation_app_head. apply Permutation_app_comm.
    + now rewrite app_assoc.
  - rewrite !app_nil_r. unfold on_settle.
    destruct (nth_error (fetching s) i) as [r |] eqn:Hnth; [| reflexivity].
    assert (Hgoal : Permutation
                      (map fst (answered s ++ [ (r, NetworkError) ])
                       ++ remove_nth i (fetching s))
                      (map fst (answered s) ++ fetching s)).
    { rewrite map_app. cbn [map fst]. rewrite <- app_assoc. cbn [app].
      apply Permutation_app_head. symmetry. now apply remove_nth_perm. }
    destruct result as [resp |]; [destruct (ok resp) |];
      cbn [answered fetching]; rewrite ?map_app in *; exact Hgoal.
  - now rewrite !app_nil_r.
Qed.

Lemma asked_app (es1 es2 : list worker_event) :
  asked here (es1 ++ es2) = (asked here es1 ++ asked here es2)%list.
Proof. apply flat_map_app. Qed.

(** X14: every request in scope is taken charge of once, and kept: after any
    events the requests answered or waiting are those there were, and the
    requests in scope that arrived.  A request out of scope is never
    answered, and a settled fetch is answered whatever its result. *)
Theorem requests_conserved (events : list worker_event) (s : state cache) :
  Permutation (in_charge (handle_all here events s)) (in_charge s ++ asked here events).
Proof.
  revert s. induction events as [| e events IH]; intros s.
  - cbn. now rewrite app_nil_r.
  - cbn [SW.handle_all fold_left]. fold (handle_all here events (handle here s e)).
    rewrite IH, (step_in_charge e s).
    change (e :: events) with ([ e ] ++ events)%list.
    now rewrite asked_app, app_assoc.
Qed.

Lemma assets_update_other (f : cache -> cache) (st : list (string * cache)) :
  lookup CACHE_NAME st = None -> update CACHE_NAME f st = st.
Proof.
  induction st as [| [n c] st IH]; [reflexivity |]. cbn [lookup update].
  destruct (String.eqb n CACHE_NAME); [discriminate |].
  intros Hst. now rewrite IH.
Qed.

Lemma step_stores_nothing (e : worker_event) (s : state cache) :
  stores_nothing e = true ->
  assets (storage (handle here s e)) = assets (storage s).
Proof.
  intros He. destruct e as [r | i result |]; cbn [SW.handle].
  - unfold SW.on_fetch. destruct (in_scope here r); [| reflexivity].
    destruct (cache_match _ r); cbn [storage]; apply assets_open.
  - unfold on_settle. destruct (nth_error (fetching s) i); [| reflexivity].
    destruct result as [resp |]; [| reflexivity].
    cbn [stores_nothing] in He. apply negb_true_iff in He. now rewrite He.
  - unfold assets. cbn [on_activate storage]. now rewrite lookup_filter_assets.
Qed.

(** X15: only responses that are [ok] are stored: events none of which settles
    a fetch with an [ok] response leave the worker's cache as it was, be the
    responses errors of the server or failures of the network. *)
Theorem failures_not_stored (events : list worker_event) (s : state cache) :
  forallb stores_nothing events = true ->
  assets (storage (handle_all here events s)) = assets (storage s).
Proof.
  revert s. induction events as [| e events IH]; intros s Hq; [reflexivity |].
  cbn [forallb] in Hq. apply andb_true_iff in Hq. destruct Hq as [He Hq].
  cbn [SW.handle_all fold_left]. fold (handle_all here events (handle here s e)).
  now rewrite (IH _ Hq), step_stores_nothing.
Qed.

(** X16: the cache comes first, and what it holds is never checked again: a
    request in scope that the cache matches is answered with the cached
    response, without a fetch, also after any events that store nothing. *)
Theorem cached_response_served (events : list worker_event) (s : state cache)
  (r : Request) (response : Response) :
  in_scope here r = true ->
  cache_match (assets (storage s)) r = Some response ->
  forallb stores_nothing events = true ->
  let before := handle_all here events s in
  let after := on_fetch here r before in
  answered after = (answered before ++ [ (r, FromCache response) ])%list
  /\ fetching after = fetching before
  /\ assets (storage after) = assets (storage s).
Proof.
  intros Hscope Hhit Hq before after.
  pose proof (failures_not_stored events s Hq) as Hsame. fold before in Hsame.
  subst after. unfold SW.on_fetch. rewrite Hscope, assets_open, Hsame, Hhit.
  cbn [answered fetching storage]. now rewrite assets_open.
Qed.

End Worker.

(** *** The worker over a cache that compares URLs *)

Lemma failures_not_stored_witness :
  assets (storage (handle_all "http://localhost:4000"
                       [ Fetch photo; Settle 0 (Some {| status := 404; body := "" |});
                         Fetch photo; Settle 0 None; Activate ]
                       installed))
  = assets (storage (@installed (list (Request * Response)))).
Proof.
  apply (@failures_not_stored _ _ "http://localhost:4000"
           [ Fetch photo; Settle 0 (Some {| status := 404; body := "" |});
             Fetch photo; Settle 0 None; Activate ] installed).
  reflexivity.
Defined.

Lemma cached_response_served_witness :
  let before := handle_all "http://localhost:4000" [ Activate ] photo_cached in
  let after := on_fetch "http://localhost:4000" photo before in
  answered after
  = (answered before ++ [ (photo, FromCache {| status := 200; body := "cup" |}) ])%list
  /\ fetching after = fetching before
  /\ assets (storage after) = assets (storage photo_cached).
Proof.
  apply (@cached_response_served _ _ "http://localhost:4000" [ Activate ] photo_cached
           photo {| status := 200; body := "cup" |}); reflexivity.
Defined.

End SWFacts.

(** ** Lazy loading *)

Module LazyFacts.

Import Lazy.

Lemma load_twice (i : img) : load (load i) = load i.
Proof.
  unfold load. cbn [data_src classList]. f_equal.
  induction (classList i) as [| c l IH]; [reflexivity |]. cbn [filter].
  destruct (negb (String.eqb c "lazy")) eqn:E; [| exact IH].
  cbn [filter]. now rewrite E, IH.
Qed.

Lemma nth_update_nth {A : Type} (f : A -> A) (l : list A) :
  forall n i,
    nth_error (update_nth n f l) i
    = if (n =? i)%nat then option_map f (nth_error l i) else nth_error l i.
Proof.
  induction l as [| a l IH]; intros [| n] [| i]; try reflexivity.
  - cbn. now destruct (n =? i)%nat.
  - exact (IH n i).
Qed.

Lemma callback_images (es : list entry) :
  forall (p : page) (i : nat),
    nth_error (images (callback p es)) i
    = option_map (after_entries es i) (nth_error (images p) i).
Proof.
  unfold callback, after_entries.
  induction es as [| e es IH]; intros p i; cbn [fold_left existsb].
  - now destruct (nth_error (images p) i).
  - rewrite IH. unfold on_entry.
    destruct (isIntersecting e) eqn:Hint; cbn [andb].
    + cbn [images]. rewrite nth_update_nth.
      destruct (entry_target e =? i)%nat eqn:Ht; cbn [orb].
      * destruct (nth_error (images p) i) as [im |]; [| reflexivity].
        cbn [option_map]. destruct (existsb _ es); [now rewrite load_twice | reflexivity].
      * reflexivity.
    + reflexivity.
Qed.

Lemma callback_observed (es : list entry) :
  forall p : page,
    observed (callback p es)
    = filter (fun j => negb (existsb (fun e => isIntersecting e && (entry_target e =? j)%nat) es))
             (observed p).
Proof.
  unfold callback.
  induction es as [| e es IH]; intros p; cbn [fold_left existsb].
  - induction (observed p) as [| j l IHl]; [reflexivity |]. cbn [filter negb].
    now f_equal.
  - rewrite IH. unfold on_entry at 1.
    destruct (isIntersecting e) eqn:Hint; cbn [andb orb]; [| reflexivity].
    cbn [observed].
    induction (observed p) as [| j l IHl]; [reflexivity |]. cbn [filter].
    rewrite Nat.eqb_sym.
    destruct (entry_target e =? j)%nat; cbn [negb orb filter]; [exact IHl |].
    destruct (existsb _ es); cbn [negb]; [exact IHl | now rewrite IHl].
Qed.

(** X17: an image is loaded exactly when some entry reports it as intersecting,
    and then once and for all: its [src] is its [data-src] (the text
    [undefined] when it has none), the class [lazy] is gone and the
    observer has dropped it.  Every other image, and every other target, is
    left as it was. *)
Theorem lazy_images_loaded (batches : list (list entry)) (p : page) (i : nat) :
  let p' := fold_left callback batches p in
  nth_error (images p') i
  = option_map (fun im => if seen i batches then load im else im) (nth_error (images p) i)
  /\ observed p' = filter (fun j => negb (seen j batches)) (observed p).
Proof.
  cbv zeta.
  assert (Hflat : forall q, fold_left callback batches q = callback q (List.concat batches)).
  { induction batches as [| b bs IH]; intros q; [reflexivity |].
    cbn [fold_left List.concat]. rewrite IH. unfold callback. now rewrite fold_left_app. }
  rewrite Hflat. split.
  - apply callback_images.
  - apply callback_observed.
Qed.

Lemma lazy_from_lazy (imgs : list img) :
  forall n j,
    In j (lazy_from n imgs) <->
    exists im, nth_error imgs (j - n) = Some im /\ (n <= j)%nat /\ is_lazy im = true.
Proof.
  induction imgs as [| im imgs IH]; intros n j; cbn [lazy_from].
  - split; [intros [] |]. intros (im & Hnth & _). now destruct (j - n)%nat.
  - rewrite in_app_iff, IH. split.
    + intros [Hhead | (im' & Hnth & Hle & Hl)].
      * destruct (is_lazy im) eqn:E; [| destruct Hhead].
        destruct Hhead as [<- | []]. exists im. rewrite Nat.sub_diag. now repeat split.
      * exists im'. replace (j - n)%nat with (S (j - S n)) by lia.
        repeat split; [exact Hnth | lia | exact Hl].
    + intros (im' & Hnth & Hle & Hl).
      destruct (Nat.eq_dec j n) as [-> | Hne].
      * rewrite Nat.sub_diag in Hnth. injection Hnth as ->. rewrite Hl. left. now left.
      * right. exists im'. replace (j - n)%nat with (S (j - S n)) in Hnth by lia.
        repeat split; [exact Hnth | lia | exact Hl].
Qed.

(** Where there is no [IntersectionObserver] nothing is observed, and no
    image is ever given its [src]; where there is, the targets are the
    images of class [lazy]. *)
Lemma setup_observes_lazy (supported : bool) (imgs : list img) (j : nat) :
  In j (observed (setup supported imgs)) <->
  supported = true /\ exists im, nth_error imgs j = Some im /\ is_lazy im = true.
Proof.
  unfold setup. cbn [observed]. destruct supported.
  - rewrite lazy_from_lazy, Nat.sub_0_r. split.
    + intros (im & Hnth & _ & Hl). split; [reflexivity |]. now exists im.
    + intros (_ & im & Hnth & Hl). exists im. repeat split; [exact Hnth | lia | exact Hl].
  - split; [intros [] |]. now intros [Hf _].
Qed.

Lemma deliveries_observed (batches : list (list entry)) :
  forall p : page,
    deliveries p batches = true ->
    forall e, In e (List.concat batches) -> In (entry_target e) (observed p).
Proof.
  induction batches as [| b rest IH]; intros p Hd e He; [destruct He |].
  cbn [deliveries] in Hd. apply andb_true_iff in Hd. destruct Hd as [Hb Hrest].
  cbn [List.concat] in He. apply in_app_or in He. destruct He as [He | He].
  - unfold delivered in Hb. rewrite forallb_forall in Hb.
    specialize (Hb e He). apply existsb_exists in Hb.
    destruct Hb as (j & Hj & Heq). apply Nat.eqb_eq in Heq. now subst j.
  - specialize (IH _ Hrest e He). rewrite callback_observed in IH.
    now apply filter_In in IH.
Qed.

(** X18: only images of class [lazy] are ever touched, and none where there is
    no [IntersectionObserver]: whatever the platform reports on the
    observer's targets, every other image keeps its [src] and its
    classes. *)
Theorem other_images_untouched (supported : bool) (imgs : list img)
  (batches : list (list entry)) (i : nat) (im : img) :
  deliveries (setup supported imgs) batches = true ->
  nth_error imgs i = Some im ->
  supported = false \/ is_lazy im = false ->
  nth_error (images (fold_left callback batches (setup supported imgs))) i = Some im.
Proof.
  intros Hd Hnth Hwhy.
  destruct (lazy_images_loaded batches (setup supported imgs) i) as [Himg _].
  rewrite Himg. cbn [setup images]. rewrite Hnth. cbn [option_map].
  destruct (seen i batches) eqn:Hseen; [exfalso | reflexivity].
  unfold seen in Hseen. apply existsb_exists in Hseen.
  destruct Hseen as (e & He & Hei). apply andb_true_iff in Hei.
  destruct Hei as [_ Ht]. apply Nat.eqb_eq in Ht.
  pose proof (deliveries_observed _ _ Hd e He) as Hobs. rewrite Ht in Hobs.
  apply setup_observes_lazy in Hobs. destruct Hobs as (Hs & im' & Hnth' & Hl).
  destruct Hwhy as [Hno | Hno]; congruence.
Qed.

Lemma other_images_untouched_witness :
  nth_error
    (images (fold_left callback
                       [ [ {| entry_target := 0; isIntersecting := true |} ] ]
                       (setup true gallery))) 1
  = Some {| img_src := Some "/assets/images/joe-profile.jpg"%string; data_src := None;
            classList := [ "profile-pic"%string ] |}.
Proof.
  apply (@other_images_untouched true gallery
           [ [ {| entry_target := 0; isIntersecting := true |} ] ] 1); try reflexivity.
  now right.
Defined.

End LazyFacts.

(** ** The counters of the about page *)

Module AboutFacts.

Import Main About.

Lemma value_eqb_eq (a b : option string) : value_eqb a b = true <-> a = b.
Proof.
  destruct a as [x |], b as [y |]; cbn [value_eqb]; try (split; congruence).
  rewrite String.eqb_eq. split; congruence.
Qed.

Lemma existsb_value (v : option string) (l : list (option string)) :
  existsb (value_eqb v) l = true <-> In v l.
Proof.
  rewrite existsb_exists. split.
  - intros (x & Hin & Heq). apply value_eqb_eq in Heq. now subst.
  - intros Hin. exists v. split; [exact Hin | now apply value_eqb_eq].
Qed.

Lemma uniq_from_in (l : list (option string)) :
  forall seen v, In v (uniq_from seen l) <-> In v l /\ ~ In v seen.
Proof.
  induction l as [| a l IH]; intros seen v; cbn [uniq_from].
  - split; [intros [] | now intros [[] _]].
  - destruct (existsb (value_eqb a) seen) eqn:E.
    + apply existsb_value in E. rewrite IH. split.
      * intros [Hin Hn]. split; [now right | exact Hn].
      * intros [[-> | Hin] Hn]; [contradiction | now split].
    + assert (Ha : ~ In a seen).
      { intros Hin. apply existsb_value in Hin. congruence. }
      cbn [In]. rewrite IH. cbn [In]. split.
      * intros [<- | [Hin Hn]]; [split; [now left | exact Ha] |].
        split; [now right | tauto].
      * intros [[<- | Hin] Hn]; [now left |].
        destruct (value_eqb a v) eqn:Eav.
        -- apply value_eqb_eq in Eav. now left.
        -- right. split; [exact Hin |]. intros [-> | Hs]; [| contradiction].
           assert (value_eqb v v = true) by now apply value_eqb_eq. congruence.
Qed.

Lemma uniq_from_nodup (l : list (option string)) :
  forall seen, NoDup (uniq_from seen l).
Proof.
  induction l as [| a l IH]; intros seen; cbn [uniq_from]; [constructor |].
  destruct (existsb (value_eqb a) seen); [apply IH |].
  constructor; [| apply IH]. rewrite uniq_from_in. intros [_ Hn]. apply Hn. now left.
Qed.

(** X19: what [known_countries] and [known_cities] hold: every value some post
    carries other than the text [Unknown], once.  A missing value ([nil])
    is one of them. *)
Theorem known_values (values : list (option string)) :
  NoDup (known values)
  /\ forall v, In v (known values) <-> In v values /\ v <> Some "Unknown"%string.
Proof.
  unfold known, uniq. split.
  - apply NoDup_filter, uniq_from_nodup.
  - intros v. rewrite filter_In, uniq_from_in, negb_true_iff. split.
    + intros [[Hin _] Hne]. split; [exact Hin |]. intros ->.
      cbn in Hne. discriminate.
    + intros [Hin Hne]. split; [split; [exact Hin | intros []] |].
      destruct (value_eqb v (Some "Unknown"%string)) eqn:E; [| reflexivity].
      apply value_eqb_eq in E. contradiction.
Qed.

Lemma known_length_perm (values values' : list (option string)) :
  Permutation values values' -> List.length (known values) = List.length (known values').
Proof.
  intros Hp. apply Permutation_length. apply NoDup_Permutation.
  - apply known_values.
  - apply known_values.
  - intros v. rewrite !(proj2 (known_values _)). split; intros [Hin Hne]; split;
      try exact Hne; [now rewrite <- Hp | now rewrite Hp].
Qed.

Lemma known_length_le (values : list (option string)) :
  (List.length (known values) <= List.length values)%nat.
Proof.
  apply NoDup_incl_length; [apply known_values |].
  intros v Hv. now apply known_values in Hv.
Qed.

(** X20: the counters do not depend on the order of the posts, and neither
    exceeds the number of coffee stops. *)
Theorem counters_stable (valid_posts valid_posts' : list post) :
  Permutation valid_posts valid_posts' ->
  coffee_stops valid_posts = coffee_stops valid_posts'
  /\ List.length (known_countries valid_posts) = List.length (known_countries valid_posts')
  /\ List.length (known_cities valid_posts) = List.length (known_cities valid_posts')
  /\ (List.length (known_countries valid_posts) <= coffee_stops valid_posts)%nat
  /\ (List.length (known_cities valid_posts) <= coffee_stops valid_posts)%nat.
Proof.
  intros Hp. unfold coffee_stops, known_countries, known_cities.
  split; [now apply Permutation_length |].
  split; [apply known_length_perm; now apply Permutation_map |].
  split; [apply known_length_perm; now apply Permutation_map |].
  split.
  - rewrite <- (length_map country valid_posts). apply known_length_le.
  - rewrite <- (length_map city valid_posts). apply known_length_le.
Qed.

Lemma counters_stable_witness :
  coffee_stops [ Geo.lisbon_post; Terms.equator_post ]
  = coffee_stops [ Terms.equator_post; Geo.lisbon_post ]
  /\ List.length (known_countries [ Geo.lisbon_post; Terms.equator_post ])
     = List.length (known_countries [ Terms.equator_post; Geo.lisbon_post ])
  /\ List.length (known_cities [ Geo.lisbon_post; Terms.equator_post ])
     = List.length (known_cities [ Terms.equator_post; Geo.lisbon_post ])
  /\ (List.length (known_countries [ Geo.lisbon_post; Terms.equator_post ])
      <= coffee_stops [ Geo.lisbon_post; Terms.equator_post ])%nat
  /\ (List.length (known_cities [ Geo.lisbon_post; Terms.equator_post ])
      <= coffee_stops [ Geo.lisbon_post; Terms.equator_post ])%nat.
Proof.
  apply (@counters_stable [ Geo.lisbon_post; Terms.equator_post ]
           [ Terms.equator_post; Geo.lisbon_post ]).
  apply perm_swap.
Defined.

End AboutFacts.

(** ** Fitting the map *)

Module IndexFacts.

Import Main Index Geo CoverFacts.

(** X11: the index page fits the map to bounds that hold every marker, and it
    does so, and schedules the prefetching, exactly when there is a
    marker. *)
Theorem fitBounds_holds_markers (coffeePostsData : list post) :
  match fitBounds coffeePostsData with
  | Some b =>
      ordered b
      /\ (forall m, In m (markers coffeePostsData) -> inside b (position m))
      /\ schedules_prefetch coffeePostsData = Some 2000%Z
  | None => markers coffeePostsData = [] /\ schedules_prefetch coffeePostsData = None
  end.
Proof.
  unfold fitBounds, schedules_prefetch.
  destruct (markers coffeePostsData) as [| m ms] eqn:Hm; [now split |].
  cbn [List.length Nat.ltb Nat.leb].
  destruct (L.latLngBounds (map position (m :: ms))) as [b |] eqn:Hb; [| discriminate].
  cbn [option_map].
  destruct (latLngBounds_inside _ Hb) as [Ho Hall].
  assert (Hr : (0 <= 0.1)%R) by lra.
  pose proof (pad_ordered Ho Hr) as Hpad. destruct Ho as [Hlat Hlng].
  assert ((0 <= (L.lat (L.getNorthEast b) - L.lat (L.getSouthWest b)) * 0.1)%R)
    by (apply Rmult_le_pos; lra).
  assert ((0 <= (L.lng (L.getNorthEast b) - L.lng (L.getSouthWest b)) * 0.1)%R)
    by (apply Rmult_le_pos; lra).
  rewrite Hpad. split; [| split; [| reflexivity]].
  - unfold ordered. cbn [L.lat L.lng L.getSouthWest L.getNorthEast]. lra.
  - intros m' Hin. specialize (Hall (position m') (in_map position _ _ Hin)).
    destruct Hall as [[? ?] [? ?]]. unfold inside.
    cbn [L.lat L.lng L.getSouthWest L.getNorthEast]. lra.
Qed.

End IndexFacts.

(** ** Static assets *)

Module ServerFacts.

Import Server.

Local Open Scope string_scope.

Lemma take_all (s : string) : take (String.length s) s = s.
Proof. induction s as [| c s IH]; [reflexivity |]. cbn. now rewrite IH. Qed.

Lemma drop_all (s : string) : drop (String.length s) s = "".
Proof. induction s as [| c s IH]; [reflexivity |]. exact IH. Qed.

Lemma toLowerCase_length (s : string) :
  String.length (Str.toLowerCase s) = String.length s.
Proof.
  unfold Str.toLowerCase. induction s as [| c s IH]; [reflexivity |].
  cbn [Str.map_chars String.length]. now rewrite IH.
Qed.

Lemma image_here_asset_here (s : string) :
  SW.image_here s = true -> asset_here s = true.
Proof.
  destruct s as [| c rest]; [discriminate |]. cbn [SW.image_here asset_here].
  intros H. apply andb_true_iff in H. destruct H as [Hc He]. rewrite Hc. cbn [andb].
  apply existsb_exists in He. destruct He as (e & Hin & Heq).
  apply String.eqb_eq in Heq.
  apply existsb_exists. exists e. split.
  - unfold SW.extensions in Hin. unfold asset_extensions. cbn [In] in *. tauto.
  - assert (Hlen : String.length e = String.length rest)
      by (subst e; apply toLowerCase_length).
    rewrite Hlen, take_all, drop_all, Heq, String.eqb_refl. reflexivity.
Qed.

(** X21: every path the pattern of the service worker matches is matched by
    the pattern of the development server, which serves such paths with a
    day-long [Cache-Control]: the images the worker caches are among the
    static assets. *)
Theorem cached_images_are_static_assets (path : string) :
  SW.matches path = true -> static_asset path = true.
Proof.
  induction path as [| c rest IH]; [discriminate |].
  cbn [SW.matches static_asset]. intros H. apply orb_true_iff in H.
  destruct H as [H | H].
  - now rewrite image_here_asset_here.
  - rewrite (IH H). apply orb_true_r.
Qed.

Lemma cached_images_are_static_assets_witness :
  static_asset "/assets/images/cup.JPG" = true.
Proof. apply (@cached_images_are_static_assets "/assets/images/cup.JPG"). reflexivity. Defined.

End ServerFacts.
